(** * docker-proxy: path translation, payload rewriting and the bridge registry

    A shallow embedding of [src/docker-proxy/main.go].

    - [Strings]: the functions of Go's [strings] package that the program
      calls, on byte strings.
    - [Regexp]: the two regular expressions of the program as syntax, run
      by a backtracking matcher with Go's leftmost-first, greedy priorities.
    - [translateWinPath], the bind and environment loops and
      [modifyAndExtract] over a decoded JSON tree.
    - [Forwarder]: [startForwarder] as an interleaving step relation over
      goroutines that share [activeForwards] and [forwardMutex]. *)

From Stdlib Require Import Ascii.
From stdpp Require Import gmap strings list fin_maps.
From Stdlib Require Import PrimFloat.

#[local] Set Warnings "-register-all".

(** ** Go strings

    A Go string is a sequence of bytes; [string] is a sequence of [ascii],
    that is, of 8-bit characters. *)

Module Strings.

Definition byte_in (lo hi c : ascii) : bool :=
  (N.leb (N_of_ascii lo) (N_of_ascii c) && N.leb (N_of_ascii c) (N_of_ascii hi))%bool.

Definition is_lower (c : ascii) : bool := byte_in "a" "z" c.
Definition is_upper (c : ascii) : bool := byte_in "A" "Z" c.

(** [a-zA-Z] *)
Definition is_letter (c : ascii) : bool := (is_lower c || is_upper c)%bool.

Definition upper_byte (c : ascii) : ascii :=
  if is_lower c then ascii_of_N (N_of_ascii c - 32) else c.

(** A byte below [utf8.RuneSelf], that is below 128. *)
Definition is_ascii (c : ascii) : bool := N.ltb (N_of_ascii c) 128.

(** [strings.ToUpper] on a string of bytes below 128, which Go maps byte
    by byte: 'a'..'z' move to 'A'..'Z', every other byte stays.  When a
    byte is 128 or above Go decodes UTF-8 and maps runes instead, which
    this definition does not follow: it stands for [strings.ToUpper] on
    strings of [is_ascii] bytes only.  The program only ever passes the
    drive letter captured by the class of letters. *)
Fixpoint ToUpper (s : string) : string :=
  match s with
  | EmptyString => EmptyString
  | String c s' => String (upper_byte c) (ToUpper s')
  end.

(** [strings.ReplaceAll(s, old, new)] for a one-byte [old]. *)
Fixpoint ReplaceAll (s : string) (old : ascii) (new : string) : string :=
  match s with
  | EmptyString => EmptyString
  | String c s' =>
      if Ascii.eqb c old then new +:+ ReplaceAll s' old new
      else String c (ReplaceAll s' old new)
  end.

(** [strings.HasSuffix(s, suffix)] *)
Fixpoint HasSuffix (s suffix : string) : bool :=
  if String.eqb s suffix then true
  else match s with
       | EmptyString => false
       | String _ s' => HasSuffix s' suffix
       end.

(** [strings.SplitN(s, sep, n)] for a one-byte [sep] and [n >= 0]: at most
    [n] pieces, the last one being the unsplit remainder. *)
Fixpoint SplitN (s : string) (sep : ascii) (n : nat) {struct s} : list string :=
  match n with
  | 0 => []
  | 1 => [s]
  | S n' =>
      match s with
      | EmptyString => [EmptyString]
      | String c s' =>
          if Ascii.eqb c sep then EmptyString :: SplitN s' sep n'
          else match SplitN s' sep n with
               | h :: t => String c h :: t
               | [] => []
               end
      end
  end.

Fixpoint take_while (p : ascii → bool) (s : string) : string :=
  match s with
  | EmptyString => EmptyString
  | String c s' => if p c then String c (take_while p s') else EmptyString
  end.

Fixpoint drop_while (p : ascii → bool) (s : string) : string :=
  match s with
  | EmptyString => EmptyString
  | String c s' => if p c then drop_while p s' else s
  end.

(** [s[:n]], clipped to the length of [s]. *)
Fixpoint slice_to (n : nat) (s : string) : string :=
  match n, s with
  | S n', String c s' => String c (slice_to n' s')
  | _, _ => EmptyString
  end.

Fixpoint all_bytes (p : ascii → bool) (s : string) : bool :=
  match s with
  | EmptyString => true
  | String c s' => (p c && all_bytes p s')%bool
  end.

Definition no_equals (s : string) : bool := all_bytes (λ c, negb (Ascii.eqb c "=")) s.

Definition first_byte (s : string) : option ascii :=
  match s with
  | EmptyString => None
  | String c _ => Some c
  end.

End Strings.

(** ** Regular expressions

    The fragment of RE2 syntax that [bindRegex] and [envPathRegex] use:
    character classes, greedy repetition of a class, sequencing, capture
    groups and the beginning-of-text anchor.  [run] is a backtracking
    matcher in continuation-passing style; it explores alternatives in the
    order that defines Go's leftmost-first match (a greedy repetition tries
    the longest run first and gives bytes back one at a time). *)

Module Regexp.
Import Strings.

Inductive re :=
  | Empty
  | Bol                              (* ^ *)
  | Class (p : ascii → bool)         (* [...] or . *)
  | Star (p : ascii → bool)          (* a starred class, greedy *)
  | Seq (a b : re)
  | Group (i : nat) (a : re).        (* ( ... ), capture number i *)

(** [[...]+] *)
Definition Plus (p : ascii → bool) : re := Seq (Class p) (Star p).

(** Captures are a slice of strings indexed by group number. *)
Definition caps := list string.

(** A continuation gets the position reached, the text left and the
    captures so far. *)
Definition cont := nat → string → caps → option caps.

Fixpoint star (p : ascii → bool) (pos : nat) (s : string) (c : caps) (k : cont)
  : option caps :=
  match s with
  | String x s' =>
      if p x then
        match star p (S pos) s' c k with
        | Some r => Some r
        | None => k pos s c
        end
      else k pos s c
  | EmptyString => k pos s c
  end.

Fixpoint run (r : re) (pos : nat) (s : string) (c : caps) (k : cont)
  : option caps :=
  match r with
  | Empty => k pos s c
  | Bol => if decide (pos = 0) then k pos s c else None
  | Class p =>
      match s with
      | String x s' => if p x then k (S pos) s' c else None
      | EmptyString => None
      end
  | Star p => star p pos s c k
  | Seq a b => run a pos s c (λ pos' s' c', run b pos' s' c' k)
  | Group i a =>
      run a pos s c (λ pos' s' c', k pos' s' (<[i := slice_to (pos' - pos) s]> c'))
  end.

(** An unanchored search tries every start position from the left. *)
Fixpoint search (r : re) (pos : nat) (s : string) (c : caps) : option caps :=
  match run r pos s c (λ _ _ c', Some c') with
  | Some m => Some m
  | None =>
      match s with
      | String _ s' => search r (S pos) s' c
      | EmptyString => None
      end
  end.

(** [FindStringSubmatch] of a compiled expression: [None] is Go's nil; otherwise element
    0 is the whole match and element [i] is group [i].  [groups] is the
    number of capture groups of [r]. *)
Definition FindStringSubmatch (r : re) (groups : nat) (s : string) : option (list string) :=
  search (Group 0 r) 0 s (replicate (S groups) EmptyString).

Definition MatchString (r : re) (groups : nat) (s : string) : bool :=
  bool_decide (is_Some (FindStringSubmatch r groups s)).

Definition is_sep (c : ascii) : bool := (Ascii.eqb c "\" || Ascii.eqb c "/")%bool.
Definition is_colon (c : ascii) : bool := Ascii.eqb c ":".
Definition not_colon (c : ascii) : bool := negb (Ascii.eqb c ":").
(** [.] without the s flag: any byte but the line feed. *)
Definition dot (c : ascii) : bool := negb (Ascii.eqb c "010").

End Regexp.

Import Strings Regexp.

(** The source's pattern: ^ ([a-zA-Z]) : [\\/] ([^:]+) ( . * ), written
    without spaces.  Group 1 is the drive, group 2 the sub-path, group 3 what
    follows it. *)
Definition bindRegex : re :=
  Seq Bol (Seq (Group 1 (Class is_letter)) (Seq (Class is_colon) (Seq (Class is_sep)
    (Seq (Group 2 (Plus not_colon)) (Group 3 (Star dot)))))).

(** The source's pattern: ^ ([a-zA-Z]) : [\\/] ( . * ), written without
    spaces. *)
Definition envPathRegex : re :=
  Seq Bol (Seq (Group 1 (Class is_letter)) (Seq (Class is_colon) (Seq (Class is_sep)
    (Group 2 (Star dot))))).

(** [match[i]] on the slice that [FindStringSubmatch] returned. *)
Definition sub (m : list string) (i : nat) : string := nth i m EmptyString.

(** ** The path translator *)

Definition translateWinPath (basePath drive path : string) : string :=
  let drive := ToUpper drive in
  let path := ReplaceAll path "\" "/" in
  let basePath := if negb (HasSuffix basePath "/") then basePath +:+ "/" else basePath in
  basePath +:+ drive +:+ "/" +:+ path.

(** ** The decoded payload

    [encoding/json] decodes into [interface{}] values: nil, bool, float64,
    string, [[]interface{}] and [map[string]interface{}]. *)

Definition float64 := float.

Inductive value :=
  | JNil
  | JBool (b : bool)
  | JNumber (f : float64)
  | JString (s : string)
  | JArray (l : list value)
  | JObject (m : gmap string value).

(** What [json.Unmarshal(bodyBytes, &containerMap)] does to a nil
    [map[string]interface{}]: an error (bad syntax, or a JSON value that is
    not an object), nothing at all for the literal null (no error, the map
    stays nil), or a fresh map for an object. *)
Inductive unmarshalled :=
  | UnmarshalError
  | UnmarshalNull
  | UnmarshalObject (m : gmap string value).

(** A nil map reads like the empty one. *)
Definition mapOf (u : unmarshalled) : gmap string value :=
  match u with
  | UnmarshalObject m => m
  | _ => ∅
  end.

(** [req.Body]: nil or [http.NoBody], a reader that fails, or a reader that
    yields bytes. *)
Inductive body :=
  | NoBody
  | FailingBody
  | Reader (bodyBytes : string).

Record Request := { Body : body; ContentLength : Z }.

(** What a call of [modifyAndExtract] leaves behind: the request, the
    [go startForwarder(hostPort, targetIP)] statements it executed, in
    order, and the final value of the local variable [modified]. *)
Record outcome := {
  request : Request;
  forwarders : list (string * string);
  modified : bool
}.

(** *** The loop bodies *)

(** Lines 123-128: the new element when [bindRegex] matches [s]. *)
Definition bindEntry (basePath s : string) : option string :=
  match FindStringSubmatch bindRegex 3 s with
  | Some match_ => Some (translateWinPath basePath (sub match_ 1) (sub match_ 2) +:+ sub match_ 3)
  | None => None
  end.

(** Lines 153-160: the new element when [s] splits at an equals sign and
    [envPathRegex] matches the second piece.  (The inner [None] is not
    reached: [MatchString] has just succeeded on the same text.) *)
Definition envEntry (basePath s : string) : option string :=
  let kv := SplitN s "=" 2 in
  if (Nat.eqb (length kv) 2 && MatchString envPathRegex 2 (sub kv 1))%bool then
    match FindStringSubmatch envPathRegex 2 (sub kv 1) with
    | Some match_ =>
        Some (sub kv 0 +:+ "=" +:+ translateWinPath basePath (sub match_ 1) (sub match_ 2))
    | None => None
    end
  else None.

(** [for i, e := range l { if s, ok := e.(string); ok { ... l[i] = new;
    modified = true } }] with the slice updated in place: [todo] iterations
    are left and [i] is the index of the next one. *)
Fixpoint rangeRewrite (f : string → option string) (todo i : nat)
    (l : list value) (modified : bool) : list value * bool :=
  match todo with
  | 0 => (l, modified)
  | S todo' =>
      match l !! i with
      | Some (JString s) =>
          match f s with
          | Some new => rangeRewrite f todo' (S i) (<[i := JString new]> l) true
          | None => rangeRewrite f todo' (S i) l modified
          end
      | _ => rangeRewrite f todo' (S i) l modified
      end
  end.

Definition rewriteBinds (basePath : string) (binds : list value) (modified : bool) :=
  rangeRewrite (bindEntry basePath) (length binds) 0 binds modified.

Definition rewriteEnvs (basePath : string) (envs : list value) (modified : bool) :=
  rangeRewrite (envEntry basePath) (length envs) 0 envs modified.

(** Lines 137-143: the host ports of one entry of [PortBindings]. *)
Definition hostPorts (bindings : value) : list string :=
  match bindings with
  | JArray bList =>
      flat_map (λ b, match b with
                     | JObject bMap =>
                         match bMap !! "HostPort" with
                         | Some (JString hostPort) => [hostPort]
                         | _ => []
                         end
                     | _ => []
                     end) bList
  | _ => []
  end.

(** Lines 135-145.  Go ranges over a map in an unspecified order;
    [map_to_list] fixes one, and nothing below depends on which. *)
Definition discoverPorts (portBindings : gmap string value) : list string :=
  flat_map (λ kv, hostPorts kv.2) (map_to_list portBindings).

(** Lines 118-147.  The slice [binds] is the one stored in [hostConfig],
    which is the map stored in [containerMap]: the in-place updates are
    visible from the root. *)
Definition rewriteHostConfig (basePath targetIP : string)
    (containerMap : gmap string value) (modified : bool)
    : gmap string value * list (string * string) * bool :=
  match containerMap !! "HostConfig" with
  | Some (JObject hostConfig) =>
      let '(hostConfig', modified') :=
        match hostConfig !! "Binds" with
        | Some (JArray binds) =>
            let '(binds', m) := rewriteBinds basePath binds modified in
            (<["Binds" := JArray binds']> hostConfig, m)
        | _ => (hostConfig, modified)
        end in
      let started :=
        match hostConfig !! "PortBindings" with
        | Some (JObject portBindings) =>
            (λ hostPort, (hostPort, targetIP)) <$> discoverPorts portBindings
        | _ => []
        end in
      (<["HostConfig" := JObject hostConfig']> containerMap, started, modified')
  | _ => (containerMap, [], modified)
  end.

(** Lines 150-163. *)
Definition rewriteEnv (basePath : string) (containerMap : gmap string value)
    (modified : bool) : gmap string value * bool :=
  match containerMap !! "Env" with
  | Some (JArray envs) =>
      let '(envs', m) := rewriteEnvs basePath envs modified in
      (<["Env" := JArray envs']> containerMap, m)
  | _ => (containerMap, modified)
  end.

(** *** [modifyAndExtract]

    [json.Unmarshal] and [json.Marshal] belong to Go's standard library;
    the program is modelled over any decoder and encoder. *)

Section ModifyAndExtract.

Variable Unmarshal : string → unmarshalled.
Variable Marshal : gmap string value → string.

Definition modifyAndExtract (req : Request) (basePath targetIP : string) : outcome :=
  match Body req with
  | NoBody => {| request := req; forwarders := []; modified := false |}
  | FailingBody => {| request := req; forwarders := []; modified := false |}
  | Reader bodyBytes =>
      match Unmarshal bodyBytes with
      | UnmarshalError =>
          {| request := {| Body := Reader bodyBytes; ContentLength := ContentLength req |};
             forwarders := []; modified := false |}
      | u =>
          let containerMap := mapOf u in
          let '(containerMap, started, modified) :=
            rewriteHostConfig basePath targetIP containerMap false in
          let '(containerMap, modified) := rewriteEnv basePath containerMap modified in
          let finalBytes := if modified then Marshal containerMap else bodyBytes in
          {| request := {| Body := Reader finalBytes;
                           ContentLength := Z.of_nat (String.length finalBytes) |};
             forwarders := started; modified := modified |}
      end
  end.

End ModifyAndExtract.

(** ** The bridge manager

    [startForwarder] runs as a goroutine ([go startForwarder(hostPort,
    targetIP)], line 140); all of them share [activeForwards] and
    [forwardMutex].  A goroutine is its [port] argument and the statement it
    is about to execute; a state of the program is the mutex, the map and
    the goroutines started so far (a goroutine that has returned stays in
    the list, so the list is also the history).  The scheduler picks any
    goroutine that can move: every interleaving of the statements below is
    a run.  (The map is read and written only between [Lock] and [Unlock],
    so the program has no data race and interleaving whole statements loses
    no behaviour.)  The sessions that the accept loop spawns do not touch
    the shared state and are left out. *)

Module Forwarder.

Inductive result := NoOp | BindFailed.

Inductive pc :=
  | AtLock            (* line 181: forwardMutex.Lock() *)
  | AtTest            (* line 182: if activeForwards[port] *)
  | AtUnlockReturn    (* lines 183-184: forwardMutex.Unlock(); return *)
  | AtSet             (* line 186: activeForwards[port] = true *)
  | AtUnlock          (* line 187: forwardMutex.Unlock() *)
  | AtListen          (* line 192: net.Listen *)
  | Accepting         (* lines 199-215: the accept loop *)
  | Returned (r : result).

Record goroutine := Goroutine { port : string; at_ : pc }.

Record state := State {
  forwardMutex : bool;                      (* true: locked *)
  activeForwards : gmap string bool;
  goroutines : list goroutine
}.

Definition init : state := State false ∅ [].

(** [activeForwards[port]]: false for a missing key. *)
Definition active (σ : state) (port : string) : bool :=
  default false (activeForwards σ !! port).

(** What the scheduler and the environment choose: a request handler
    starts a goroutine, or goroutine [i] executes its next statement;
    [bindOk] is whether [net.Listen] succeeds, should that be the
    statement. *)
Inductive action :=
  | Go (port : string)
  | Sched (i : nat) (bindOk : bool).

Definition move (σ : state) (i : nat) (g : goroutine) (to : pc) (mutex : bool)
    (forwards : gmap string bool) : state :=
  State mutex forwards (<[i := Goroutine (port g) to]> (goroutines σ)).

(** One statement of one goroutine; [None] when it cannot move (blocked
    on the mutex, returned, or no such goroutine). *)
Definition exec (σ : state) (a : action) : option state :=
  match a with
  | Go port => Some (State (forwardMutex σ) (activeForwards σ)
                       (goroutines σ ++ [Goroutine port AtLock]))
  | Sched i bindOk =>
      match goroutines σ !! i with
      | None => None
      | Some g =>
          match at_ g with
          | AtLock =>
              if forwardMutex σ then None
              else Some (move σ i g AtTest true (activeForwards σ))
          | AtTest =>
              if active σ (port g)
              then Some (move σ i g AtUnlockReturn (forwardMutex σ) (activeForwards σ))
              else Some (move σ i g AtSet (forwardMutex σ) (activeForwards σ))
          | AtUnlockReturn => Some (move σ i g (Returned NoOp) false (activeForwards σ))
          | AtSet =>
              Some (move σ i g AtUnlock (forwardMutex σ) (<[port g := true]> (activeForwards σ)))
          | AtUnlock => Some (move σ i g AtListen false (activeForwards σ))
          | AtListen =>
              Some (move σ i g (if bindOk then Accepting else Returned BindFailed)
                      (forwardMutex σ) (activeForwards σ))
          | Accepting => Some σ
          | Returned _ => None
          end
      end
  end.

Definition step (σ σ' : state) : Prop := ∃ a, exec σ a = Some σ'.

Definition reachable (σ : state) : Prop := rtc step init σ.

(** A whole schedule, for running examples. *)
Fixpoint execs (σ : state) (sched : list action) : option state :=
  match sched with
  | [] => Some σ
  | a :: sched' =>
      match exec σ a with
      | Some σ' => execs σ' sched'
      | None => None
      end
  end.

(** *** Observations on a state *)

Definition count (P : goroutine → bool) (gs : list goroutine) : nat :=
  sum_list_with (λ g, Nat.b2n (P g)) gs.

Definition for_port (p : string) (g : goroutine) : bool := bool_decide (port g = p).

(** Between [Lock] and [Unlock]. *)
Definition holds_mutex (g : goroutine) : bool :=
  match at_ g with
  | AtTest | AtUnlockReturn | AtSet | AtUnlock => true
  | _ => false
  end.

Definition at_test (g : goroutine) : bool :=
  match at_ g with AtTest => true | _ => false end.

Definition at_set (g : goroutine) : bool :=
  match at_ g with AtSet => true | _ => false end.

(** Has executed line 186. *)
Definition has_set (g : goroutine) : bool :=
  match at_ g with
  | AtUnlock | AtListen | Accepting | Returned BindFailed => true
  | _ => false
  end.

(** Found the port absent at line 182: the winner of the test-and-set. *)
Definition won (g : goroutine) : bool := (at_set g || has_set g)%bool.

(** Has called [net.Listen]. *)
Definition called_listen (g : goroutine) : bool :=
  match at_ g with
  | Accepting | Returned BindFailed => true
  | _ => false
  end.

(** Owns a listener. *)
Definition listening (g : goroutine) : bool :=
  match at_ g with Accepting => true | _ => false end.

(** Has not won and cannot win any more once the port is in the map:
    the statements of the path that returns at line 184. *)
Definition noop_path (a : pc) : bool :=
  match a with
  | AtLock | AtTest | AtUnlockReturn | Returned NoOp => true
  | _ => false
  end.

Definition countFor (P : goroutine → bool) (p : string) (σ : state) : nat :=
  count (λ g, for_port p g && P g)%bool (goroutines σ).

(** The number of invocations of [startForwarder] with [p] so far. *)
Definition invocations (p : string) (σ : state) : nat := countFor (λ _, true) p σ.

(** The number of listeners ever started for [p]. *)
Definition listenCalls (p : string) (σ : state) : nat := countFor called_listen p σ.

(** The number of listeners that exist for [p]. *)
Definition listeners (p : string) (σ : state) : nat := countFor listening p σ.

(** The number of invocations for [p] that won the test-and-set. *)
Definition winners (p : string) (σ : state) : nat := countFor won p σ.


(** Two runs for the examples.  In [failedRun] one invocation for port
    54322 wins the test-and-set and fails to bind.  [laterRun] continues
    it: two more invocations for the same port arrive, interleaved, and
    both take the path that returns at line 184; an invocation for port
    8000 binds. *)
Definition failedRun : list action :=
  [Go "54322"; Sched 0 true; Sched 0 true; Sched 0 true; Sched 0 true; Sched 0 false].

Definition laterRun : list action :=
  [Go "54322"; Go "54322"; Go "8000";
   Sched 1 true; Sched 1 true; Sched 1 true;
   Sched 3 true; Sched 3 true; Sched 3 true; Sched 3 true;
   Sched 2 true; Sched 3 true; Sched 2 true; Sched 2 true; Sched 3 true].

Definition failedState : state :=
  State false {["54322" := true]} [Goroutine "54322" (Returned BindFailed)].

Definition laterState : state :=
  State false {["54322" := true; "8000" := true]}
    [Goroutine "54322" (Returned BindFailed); Goroutine "54322" (Returned NoOp);
     Goroutine "54322" (Returned NoOp); Goroutine "8000" Accepting].

(** What every reachable state satisfies: the mutex is held by exactly the
    goroutines between [Lock] and [Unlock], of which there is at most one;
    and for every port, at most one goroutine has won, one that has
    executed line 186 implies the port is in the map, and one that is about
    to execute it implies the port is not yet there. *)
Definition inv (σ : state) : Prop :=
  count holds_mutex (goroutines σ) = Nat.b2n (forwardMutex σ)
  ∧ ∀ p, winners p σ ≤ 1
         ∧ (active σ p = false → countFor has_set p σ = 0)
         ∧ (active σ p = true → countFor at_set p σ = 0).

End Forwarder.

(** ** A sample decoder

    The theorems about [modifyAndExtract] hold for every decoder and
    encoder.  To run the program on concrete request bodies, [SampleJSON]
    reads the fragment of JSON without numbers and without unicode escapes:
    objects, arrays, strings, true, false and null. *)

Module SampleJSON.

Definition quote : string := String "034" EmptyString.

(** A string literal of JSON around [s] (which needs no escaping). *)
Definition lit (s : string) : string := quote +:+ s +:+ quote.

Fixpoint skip_ws (s : string) : string :=
  match s with
  | String c s' => if Ascii.is_space c then skip_ws s' else s
  | EmptyString => s
  end.

(** The characters of a string literal up to its closing quote. *)
Fixpoint chars (s : string) : option (string * string) :=
  match s with
  | EmptyString => None
  | String c s' =>
      if Ascii.eqb c "034" then Some (EmptyString, s')
      else if Ascii.eqb c "\" then
        match s' with
        | String e s'' =>
            let unescaped :=
              if Ascii.eqb e "n" then Some "010"%char
              else if Ascii.eqb e "t" then Some "009"%char
              else if (Ascii.eqb e "\" || Ascii.eqb e "/" || Ascii.eqb e "034")%bool then Some e
              else None in
            match unescaped, chars s'' with
            | Some x, Some (t, rest) => Some (String x t, rest)
            | _, _ => None
            end
        | EmptyString => None
        end
      else
        match chars s' with
        | Some (t, rest) => Some (String c t, rest)
        | None => None
        end
  end.

Definition keyword (w : string) (v : value) (s : string) : option (value * string) :=
  if String.prefix w s then Some (v, String.substring (String.length w) (String.length s) s)
  else None.

Fixpoint parse_value (fuel : nat) (s : string) : option (value * string) :=
  match fuel with
  | 0 => None
  | S fuel' =>
      match skip_ws s with
      | String c r =>
          if Ascii.eqb c "034" then
            match chars r with
            | Some (t, rest) => Some (JString t, rest)
            | None => None
            end
          else if Ascii.eqb c "[" then
            match skip_ws r with
            | String "]" rest => Some (JArray [], rest)
            | _ => parse_elements fuel' r []
            end
          else if Ascii.eqb c "{" then
            match skip_ws r with
            | String "}" rest => Some (JObject ∅, rest)
            | _ => parse_members fuel' r ∅
            end
          else if Ascii.eqb c "n" then keyword "null" JNil (String c r)
          else if Ascii.eqb c "t" then keyword "true" (JBool true) (String c r)
          else if Ascii.eqb c "f" then keyword "false" (JBool false) (String c r)
          else None
      | EmptyString => None
      end
  end
with parse_elements (fuel : nat) (s : string) (acc : list value) : option (value * string) :=
  match fuel with
  | 0 => None
  | S fuel' =>
      match parse_value fuel' s with
      | Some (v, rest) =>
          match skip_ws rest with
          | String "," rest' => parse_elements fuel' rest' (acc ++ [v])
          | String "]" rest' => Some (JArray (acc ++ [v]), rest')
          | _ => None
          end
      | None => None
      end
  end
with parse_members (fuel : nat) (s : string) (acc : gmap string value) : option (value * string) :=
  match fuel with
  | 0 => None
  | S fuel' =>
      match skip_ws s with
      | String "034" r =>
          match chars r with
          | Some (k, rest) =>
              match skip_ws rest with
              | String ":" rest' =>
                  match parse_value fuel' rest' with
                  | Some (v, rest'') =>
                      match skip_ws rest'' with
                      | String "," rest3 => parse_members fuel' rest3 (<[k := v]> acc)
                      | String "}" rest3 => Some (JObject (<[k := v]> acc), rest3)
                      | _ => None
                      end
                  | None => None
                  end
              | _ => None
              end
          | None => None
          end
      | _ => None
      end
  end.

Definition Unmarshal (bodyBytes : string) : unmarshalled :=
  match parse_value (2 * String.length bodyBytes + 2) bodyBytes with
  | Some (v, rest) =>
      match skip_ws rest, v with
      | EmptyString, JObject m => UnmarshalObject m
      | EmptyString, JNil => UnmarshalNull
      | _, _ => UnmarshalError
      end
  | None => UnmarshalError
  end.

End SampleJSON.

(** A request body for the examples: two descriptors with the host port
    54322, one with 8000, a bind of a path that has no drive and an
    environment entry that is no path. *)
Definition samplePorts : string :=
  let q := SampleJSON.lit in
  "{" +:+ q "HostConfig" +:+ ":{"
      +:+ q "Binds" +:+ ":[" +:+ q "/srv/data:/app" +:+ "],"
      +:+ q "PortBindings" +:+ ":{"
          +:+ q "5432/tcp" +:+ ":[{" +:+ q "HostPort" +:+ ":" +:+ q "54322" +:+ "},{"
                                    +:+ q "HostPort" +:+ ":" +:+ q "54322" +:+ "}],"
          +:+ q "8000/tcp" +:+ ":[{" +:+ q "HostPort" +:+ ":" +:+ q "8000" +:+ "}]}},"
      +:+ q "Env" +:+ ":[" +:+ q "NAME=value" +:+ "]}".

(** Two request bodies whose strings contain the JSON escape for a line
    feed: a bind whose text after the container path goes on after the line
    feed, and an environment entry whose value has two lines. *)
Definition sampleBindLineFeed : string :=
  let q := SampleJSON.lit in
  "{" +:+ q "HostConfig" +:+ ":{" +:+ q "Binds" +:+ ":[" +:+ q "C:\\data:/app\nro" +:+ "]}}".

Definition sampleEnvLineFeed : string :=
  let q := SampleJSON.lit in
  "{" +:+ q "Env" +:+ ":[" +:+ q "P=C:\\a\nb" +:+ "]}".

(** An environment entry whose value has a second equals sign after a line
    feed. *)
Definition sampleEnvLaterEquals : string :=
  let q := SampleJSON.lit in
  "{" +:+ q "Env" +:+ ":[" +:+ q "OPTS=C:\\cfg\\a=b\nc=d" +:+ "]}".

(** ** What the two expressions match, in closed form

    Both patterns start with a drive letter, a colon and a slash or backslash;
    [pathPrefix] reads these three bytes. *)

Definition pathPrefix (s : string) : option (ascii * ascii * string) :=
  match s with
  | String d (String c (String sep rest)) =>
      if (is_letter d && is_colon c && is_sep sep)%bool then Some (d, sep, rest) else None
  | _ => None
  end.

Definition bindMatch (s : string) : option (list string) :=
  match pathPrefix s with
  | Some (d, sep, rest) =>
      let p := take_while not_colon rest in
      let t := take_while dot (drop_while not_colon rest) in
      match p with
      | EmptyString => None
      | _ => Some [String d (String ":" (String sep (p +:+ t))); String d EmptyString; p; t]
      end
  | None => None
  end.

Definition envMatch (s : string) : option (list string) :=
  match pathPrefix s with
  | Some (d, sep, rest) =>
      let p := take_while dot rest in
      Some [String d (String ":" (String sep p)); String d EmptyString; p]
  | None => None
  end.

(** Lines 38-40: the base with a slash appended when it has none. *)
Definition withSlash (basePath : string) : string :=
  if HasSuffix basePath "/" then basePath else basePath +:+ "/".

(** The specification's reading of the base: it ends in exactly one slash. *)
Definition endsInOneSlash (b : string) : Prop :=
  HasSuffix b "/" = true ∧ HasSuffix b "//" = false.

Definition no_backslash (s : string) : bool := all_bytes (λ c, negb (Ascii.eqb c "\")) s.

Definition no_line_feed (s : string) : bool := all_bytes dot s.

(** One iteration of the two rewriting loops, on the element alone. *)
Definition rewriteElem (f : string → option string) (v : value) : value :=
  match v with
  | JString s => match f s with Some new => JString new | None => v end
  | _ => v
  end.

(** Whether the iteration rewrites the element. *)
Definition hits (f : string → option string) (v : value) : bool :=
  match v with
  | JString s => bool_decide (is_Some (f s))
  | _ => false
  end.

(** *** The three substructures of a payload *)

(** [HostConfig.Binds], empty when absent or of another type. *)
Definition bindsOf (containerMap : gmap string value) : list value :=
  match containerMap !! "HostConfig" with
  | Some (JObject hostConfig) =>
      match hostConfig !! "Binds" with
      | Some (JArray binds) => binds
      | _ => []
      end
  | _ => []
  end.

(** [Env], empty when absent or of another type. *)
Definition envsOf (containerMap : gmap string value) : list value :=
  match containerMap !! "Env" with
  | Some (JArray envs) => envs
  | _ => []
  end.

(** [HostConfig.PortBindings], empty when absent or of another type. *)
Definition portBindingsOf (containerMap : gmap string value) : gmap string value :=
  match containerMap !! "HostConfig" with
  | Some (JObject hostConfig) =>
      match hostConfig !! "PortBindings" with
      | Some (JObject portBindings) => portBindings
      | _ => ∅
      end
  | _ => ∅
  end.

(** The host port that a binding descriptor carries, if it is an object
    with a string under [HostPort]. *)
Definition descriptorPort (b : value) : option string :=
  match b with
  | JObject bMap =>
      match bMap !! "HostPort" with
      | Some (JString hostPort) => Some hostPort
      | _ => None
      end
  | _ => None
  end.

(** The descriptors of a payload, over all entries of its port bindings. *)
Definition descriptors (containerMap : gmap string value) : list value :=
  flat_map (λ kv, match kv.2 with JArray bList => bList | _ => [] end)
           (map_to_list (portBindingsOf containerMap)).

(** How many descriptors of the payload carry the host port [p]. *)
Definition occurrences (p : string) (containerMap : gmap string value) : nat :=
  length (filter (λ b, descriptorPort b = Some p) (descriptors containerMap)).

(** How often [startForwarder] was started with port [p]. *)
Definition started (p : string) (calls : list (string * string)) : nat :=
  length (filter (λ c, c.1 = p) calls).

(** ** The payload as a whole

    Lines 115-163 on a decoded payload: the rewritten tree, the forwarders
    started and the final value of [modified]. *)

Definition rewritePayload (basePath targetIP : string) (containerMap : gmap string value)
    : gmap string value * list (string * string) * bool :=
  let '(containerMap1, calls, modified1) :=
    rewriteHostConfig basePath targetIP containerMap false in
  let '(containerMap2, modified2) := rewriteEnv basePath containerMap1 modified1 in
  (containerMap2, calls, modified2).

(** ** The request hook

    [main] builds the reverse proxy from the command-line flags; its
    [Director] runs on every proxied request (lines 71-80). *)

(** [strings.HasPrefix(s, prefix)] *)
Fixpoint HasPrefix (s prefix : string) : bool :=
  match prefix, s with
  | EmptyString, _ => true
  | String a prefix', String b s' => (Ascii.eqb a b && HasPrefix s' prefix')%bool
  | String _ _, EmptyString => false
  end.

(** [strings.Contains(s, substr)]: [substr] starts at some index of [s]. *)
Fixpoint Contains (s substr : string) : bool :=
  if HasPrefix s substr then true
  else match s with
       | EmptyString => false
       | String _ s' => Contains s' substr
       end.

(** The flags of lines 46-49. *)
Record Flags := {
  flagIP : string;          (* -ip *)
  flagVMPort : string;      (* -vm-port *)
  flagLocalPort : string;   (* -local-port *)
  flagBase : string         (* -base *)
}.

Definition defaultFlags : Flags :=
  {| flagIP := "192.168.137.25"; flagVMPort := "2375"; flagLocalPort := "2375";
     flagBase := "/mnt/hgfs/docker/volumes/" |}.

(** Lines 52-53. *)
Definition targetAddr (flags : Flags) : string := flagIP flags +:+ ":" +:+ flagVMPort flags.
Definition localAddr (flags : Flags) : string := "127.0.0.1:" +:+ flagLocalPort flags.

Record URL := { Scheme : string; URLHost : string; Path : string }.

(** The fields of [*http.Request] that the [Director] reads or writes;
    [Payload] is the part that [modifyAndExtract] works on. *)
Record HTTPRequest := {
  Method : string;
  ReqURL : URL;
  Host : string;
  Payload : Request
}.

Definition MethodPost : string := "POST".

Section Director.

Variable Unmarshal : string → unmarshalled.
Variable Marshal : gmap string value → string.

(** Lines 71-80: the request as the transport will send it, and the
    forwarders started on the way. *)
Definition Director (flags : Flags) (req : HTTPRequest)
    : HTTPRequest * list (string * string) :=
  let url := {| Scheme := "http"; URLHost := targetAddr flags; Path := Path (ReqURL req) |} in
  if (String.eqb (Method req) MethodPost
      && Contains (Path (ReqURL req)) "/containers/create")%bool
  then
    let out := modifyAndExtract Unmarshal Marshal (Payload req) (flagBase flags) (flagIP flags) in
    ({| Method := Method req; ReqURL := url; Host := targetAddr flags;
        Payload := request out |}, forwarders out)
  else
    ({| Method := Method req; ReqURL := url; Host := targetAddr flags;
        Payload := Payload req |}, []).

End Director.

(** ** Whole calls of [startForwarder]

    Scheduling one goroutine again and again until it has returned or sits
    in its accept loop is a call of [startForwarder] that nothing
    interleaves with. *)

Module Calls.
Import Forwarder.

Definition finished (a : pc) : bool :=
  match a with
  | Accepting | Returned _ => true
  | _ => false
  end.

(** Goroutine [i] alone, for at most [fuel] statements. *)
Fixpoint runCall (fuel : nat) (σ : state) (i : nat) (bindOk : bool) : option state :=
  match fuel with
  | 0 => Some σ
  | S fuel' =>
      match goroutines σ !! i with
      | None => None
      | Some g =>
          if finished (at_ g) then Some σ
          else match exec σ (Sched i bindOk) with
               | Some σ' => runCall fuel' σ' i bindOk
               | None => None
               end
      end
  end.

(** [go startForwarder(port, ...)], run to its end before anything else
    moves.  Five statements lead from the lock to the accept loop. *)
Definition call (σ : state) (port : string) (bindOk : bool) : option state :=
  match exec σ (Go port) with
  | Some σ' => runCall 5 σ' (length (goroutines σ)) bindOk
  | None => None
  end.

(** The forwarders of one request, one call after the other. *)
Fixpoint serve (σ : state) (ports : list string) (bindOk : bool) : option state :=
  match ports with
  | [] => Some σ
  | port :: ports' =>
      match call σ port bindOk with
      | Some σ' => serve σ' ports' bindOk
      | None => None
      end
  end.

(** The listeners that calls for the ports [ps] add for port [q]: one if
    [q] is among them and not yet in the map, none otherwise. *)
Definition fresh_in (σ : state) (ps : list string) (q : string) : nat :=
  if active σ q then 0 else if bool_decide (q ∈ ps) then 1 else 0.

(** A state in which one invocation holds the mutex, for the examples. *)
Definition heldState : state := State true ∅ [Goroutine "54322" AtTest].

(** What every reachable state satisfies besides [inv]: the map holds no
    false entry, and a port is in the map only if an invocation for it has
    executed line 186. *)
Definition registry_inv (σ : state) : Prop :=
  (∀ p v, activeForwards σ !! p = Some v → v = true)
  ∧ ∀ p, active σ p = true → 1 ≤ countFor has_set p σ.

(** A run after which an invocation for port 54322, which is in the map,
    waits for the mutex while an invocation for port 8000 holds it. *)
Definition waitingRun : list action :=
  [Go "54322"; Go "54322"; Go "8000";
   Sched 0 true; Sched 0 true; Sched 0 true; Sched 0 true; Sched 0 true;
   Sched 2 true; Sched 2 true].

Definition waitingState : state :=
  State true {["54322" := true]}
    [Goroutine "54322" Accepting; Goroutine "54322" AtLock; Goroutine "8000" AtSet].

(** Has returned at line 184. *)
Definition returned_noop (g : goroutine) : bool :=
  match at_ g with Returned NoOp => true | _ => false end.

End Calls.

(** * Properties *)

(** ** Strings *)

Section StringFacts.

Lemma str_app_cons c (s t : string) : String c s +:+ t = String c (s +:+ t).
Proof. reflexivity. Qed.

Lemma str_app_empty_l (s : string) : EmptyString +:+ s = s.
Proof. reflexivity. Qed.

Lemma str_app_empty_r (s : string) : s +:+ EmptyString = s.
Proof. induction s as [|c s IH]; [done|]. by rewrite str_app_cons, IH. Qed.

Lemma str_app_assoc (s t u : string) : (s +:+ t) +:+ u = s +:+ (t +:+ u).
Proof. induction s as [|c s IH]; [done|]. by rewrite !str_app_cons, IH. Qed.

Lemma str_app_length (s t : string) :
  String.length (s +:+ t) = String.length s + String.length t.
Proof. induction s as [|c s IH]; [done|]. rewrite str_app_cons. simpl. by rewrite IH. Qed.

Lemma str_take_app (s t : string) : slice_to (String.length s) (s +:+ t) = s.
Proof. induction s as [|c s IH]; [by destruct t|]. rewrite str_app_cons. simpl. by rewrite IH. Qed.

Lemma str_take_app_add (s t : string) n :
  slice_to (String.length s + n) (s +:+ t) = s +:+ slice_to n t.
Proof. induction s as [|c s IH]; [done|]. rewrite !str_app_cons. simpl. by rewrite IH. Qed.

Lemma take_drop_while p (s : string) : take_while p s +:+ drop_while p s = s.
Proof.
  induction s as [|c s IH]; [done|]. simpl.
  destruct (p c); [|done]. by rewrite str_app_cons, IH.
Qed.

Lemma take_take_while p (s : string) :
  slice_to (String.length (take_while p s)) s = take_while p s.
Proof. rewrite <- (take_drop_while p s) at 2. apply str_take_app. Qed.

Lemma take_while_all p (s t : string) :
  all_bytes p s = true → first_byte t ≫= (λ c, Some (p c)) ≠ Some true →
  take_while p (s +:+ t) = s ∧ drop_while p (s +:+ t) = t.
Proof.
  intros Hs Ht. induction s as [|c s IH].
  - rewrite str_app_empty_l. destruct t as [|x t]; [done|]. simpl in *.
    destruct (p x); [done|]. done.
  - rewrite str_app_cons. simpl in *. apply andb_true_iff in Hs as [-> Hs].
    destruct (IH Hs) as [-> ->]. done.
Qed.

Lemma HasSuffix_app (s suffix : string) : HasSuffix (s +:+ suffix) suffix = true.
Proof.
  induction s as [|c s IH].
  - rewrite str_app_empty_l. destruct suffix; simpl; by rewrite ?String.eqb_refl, ?Ascii.eqb_refl.
  - rewrite str_app_cons. simpl HasSuffix. rewrite IH. by case_match.
Qed.

Lemma HasSuffix_inv (s suffix : string) :
  HasSuffix s suffix = true → ∃ r, s = r +:+ suffix.
Proof.
  induction s as [|c s IH]; intros H.
  - destruct suffix; [|done]. by exists EmptyString.
  - change (HasSuffix (String c s) suffix)
      with (if String.eqb (String c s) suffix then true else HasSuffix s suffix) in H.
    destruct (String.eqb_spec (String c s) suffix) as [<-|_].
    + by exists EmptyString.
    + apply IH in H as [r ->]. by exists (String c r).
Qed.

Lemma all_bytes_app p (s t : string) :
  all_bytes p (s +:+ t) = (all_bytes p s && all_bytes p t)%bool.
Proof.
  induction s as [|c s IH]; [done|]. rewrite str_app_cons. simpl.
  by rewrite IH, andb_assoc.
Qed.

(** After [ReplaceAll(s, old, new)] no [old] is left, when [new] has none. *)
Lemma ReplaceAll_clean (s : string) old new :
  all_bytes (λ c, negb (Ascii.eqb c old)) new = true →
  all_bytes (λ c, negb (Ascii.eqb c old)) (ReplaceAll s old new) = true.
Proof.
  intros Hnew. induction s as [|c s IH]; [done|]. simpl.
  destruct (Ascii.eqb c old) eqn:E.
  - by rewrite all_bytes_app, Hnew, IH.
  - simpl. by rewrite E, IH.
Qed.

Lemma upper_byte_letter c : is_letter c = true → is_upper (upper_byte c) = true.
Proof.
  destruct c as [[] [] [] [] [] [] [] []]; vm_compute; congruence.
Qed.

Lemma SplitN_one (s : string) sep : SplitN s sep 1 = [s].
Proof. by destruct s. Qed.

Lemma SplitN_cons c (s : string) sep n :
  SplitN (String c s) sep (S (S n)) =
    if Ascii.eqb c sep then EmptyString :: SplitN s sep (S n)
    else match SplitN s sep (S (S n)) with
         | h :: t => String c h :: t
         | [] => []
         end.
Proof. reflexivity. Qed.

(** [SplitN(s, "=", 2)] cuts at the first equals sign. *)
Lemma SplitN_first (k v : string) :
  no_equals k = true → SplitN (k +:+ "=" +:+ v) "=" 2 = [k; v].
Proof.
  induction k as [|c k IH]; intros Hk.
  - rewrite str_app_empty_l, str_app_cons, SplitN_cons, Ascii.eqb_refl.
    by rewrite str_app_empty_l, SplitN_one.
  - apply andb_true_iff in Hk as [Hc Hk]. apply negb_true_iff in Hc.
    by rewrite str_app_cons, SplitN_cons, Hc, (IH Hk).
Qed.

Lemma SplitN_none (s : string) : no_equals s = true → SplitN s "=" 2 = [s].
Proof.
  induction s as [|c s IH]; [done|]. intros [Hc Hs]%andb_true_iff.
  apply negb_true_iff in Hc. by rewrite SplitN_cons, Hc, (IH Hs).
Qed.

End StringFacts.

(** ** The matcher on the program's two expressions *)

Section RegexpFacts.

(** A greedy star whose continuation cannot fail takes the longest run. *)
Lemma star_longest p pos (s : string) c (k : cont) :
  (∀ pos' s' c', is_Some (k pos' s' c')) →
  star p pos s c k = k (pos + String.length (take_while p s)) (drop_while p s) c.
Proof.
  intros Hk. revert pos. induction s as [|x s IH]; intros pos; simpl.
  - by rewrite Nat.add_0_r.
  - destruct (p x); simpl; [|by rewrite Nat.add_0_r].
    rewrite IH. destruct (Hk (S pos + String.length (take_while p s)) (drop_while p s) c)
      as [r Hr]. rewrite Hr, <- Hr. f_equal. lia.
Qed.

(** An expression that starts with [Bol] matches at position 0 or nowhere. *)
Lemma search_anchored r (s : string) c :
  search (Group 0 (Seq Bol r)) 0 s c = run (Group 0 (Seq Bol r)) 0 s c (λ _ _ c', Some c').
Proof.
  assert (∀ (t : string) pos, pos ≠ 0 → search (Group 0 (Seq Bol r)) pos t c = None) as Hfail.
  { induction t as [|x t IH]; intros pos Hpos; simpl; destruct (decide (pos = 0)); try done.
    apply IH. lia. }
  destruct s as [|x s]; simpl.
  - by destruct (run r 0 EmptyString c _).
  - destruct (run r 0 (String x s) c _); [done|]. by apply Hfail.
Qed.

Lemma FindStringSubmatch_bindRegex (s : string) :
  FindStringSubmatch bindRegex 3 s = bindMatch s.
Proof.
  unfold FindStringSubmatch, bindRegex. rewrite search_anchored.
  unfold bindMatch, pathPrefix.
  destruct s as [|d [|c [|sep rest]]]; simpl.
  - done.
  - by destruct (is_letter d).
  - destruct (is_letter d); [|done]. by destruct (is_colon c).
  - destruct (is_letter d); [|done]. destruct (is_colon c) eqn:Hc; [|done].
    destruct (is_sep sep); [|done]. simpl.
    apply Ascii.eqb_eq in Hc as ->.
    destruct rest as [|x rest]; [done|]. simpl.
    destruct (not_colon x); [|done].
    rewrite star_longest.
    2:{ intros. rewrite star_longest; [done|]. by intros. }
    rewrite star_longest by (by intros). simpl.
    assert (∀ q (u : string) n,
      slice_to (String.length (take_while q u) + n) u = take_while q u +:+ slice_to n (drop_while q u))
      as Hsplit.
    { intros q u n. rewrite <- (take_drop_while q u) at 2. apply str_take_app_add. }
    repeat f_equal.
    + by rewrite str_app_cons, Hsplit, take_take_while.
    + apply take_take_while.
    + replace (_ + _ - _) with (String.length (take_while dot (drop_while not_colon rest)))
        by lia. apply take_take_while.
Qed.

End RegexpFacts.

Section EntryFacts.

Lemma FindStringSubmatch_envPathRegex (s : string) :
  FindStringSubmatch envPathRegex 2 s = envMatch s.
Proof.
  unfold FindStringSubmatch, envPathRegex. rewrite search_anchored.
  unfold envMatch, pathPrefix.
  destruct s as [|d [|c [|sep rest]]]; simpl.
  - done.
  - by destruct (is_letter d).
  - destruct (is_letter d); [|done]. by destruct (is_colon c).
  - destruct (is_letter d); [|done]. destruct (is_colon c) eqn:Hc; [|done].
    destruct (is_sep sep); [|done]. simpl.
    apply Ascii.eqb_eq in Hc as ->.
    rewrite star_longest by (by intros). simpl.
    by rewrite Nat.sub_0_r, !take_take_while.
Qed.

Lemma MatchString_envPathRegex (s : string) :
  MatchString envPathRegex 2 s = bool_decide (is_Some (pathPrefix s)).
Proof.
  unfold MatchString. rewrite FindStringSubmatch_envPathRegex. unfold envMatch.
  destruct (pathPrefix s) as [[[d sep] rest]|].
  - by rewrite !bool_decide_true by eauto.
  - by rewrite !bool_decide_false by (by intros [? ?]).
Qed.

Lemma bindEntry_closed (basePath s : string) :
  bindEntry basePath s =
    match bindMatch s with
    | Some m => Some (translateWinPath basePath (sub m 1) (sub m 2) +:+ sub m 3)
    | None => None
    end.
Proof. unfold bindEntry. by rewrite FindStringSubmatch_bindRegex. Qed.

Lemma envEntry_closed (basePath s : string) :
  envEntry basePath s =
    match SplitN s "=" 2 with
    | [k; v] =>
        match envMatch v with
        | Some m => Some (k +:+ "=" +:+ translateWinPath basePath (sub m 1) (sub m 2))
        | None => None
        end
    | _ => None
    end.
Proof.
  unfold envEntry.
  destruct (SplitN s "=" 2) as [|k [|v [|x kv]]]; try done.
  cbn [length Nat.eqb andb sub nth].
  rewrite MatchString_envPathRegex, FindStringSubmatch_envPathRegex. unfold envMatch.
  destruct (pathPrefix v) as [[[d sep] rest]|].
  - by rewrite bool_decide_true by eauto.
  - by rewrite bool_decide_false by (by intros [? ?]).
Qed.

Lemma translateWinPath_eq (basePath drive path : string) :
  translateWinPath basePath drive path =
    withSlash basePath +:+ ToUpper drive +:+ "/" +:+ ReplaceAll path "\" "/".
Proof. unfold translateWinPath, withSlash. by destruct (HasSuffix basePath "/"). Qed.

Lemma withSlash_suffix (b : string) : HasSuffix (withSlash b) "/" = true.
Proof.
  unfold withSlash. destruct (HasSuffix b "/") eqn:E; [done|]. apply HasSuffix_app.
Qed.

Lemma HasSuffix_cons c (s suffix : string) :
  HasSuffix (String c s) suffix =
    if String.eqb (String c s) suffix then true else HasSuffix s suffix.
Proof. reflexivity. Qed.

Lemma HasSuffix_slash_slash (b : string) :
  HasSuffix (b +:+ "/") "//" = HasSuffix b "/".
Proof.
  induction b as [|c b IH]; [done|].
  rewrite str_app_cons, !HasSuffix_cons, IH.
  destruct b as [|x b]; [|destruct b; simpl; by repeat case_match].
  rewrite str_app_empty_l. simpl. by repeat case_match.
Qed.

Lemma withSlash_one (b : string) : HasSuffix b "//" = false → endsInOneSlash (withSlash b).
Proof.
  intros Hb. split; [apply withSlash_suffix|].
  unfold withSlash. destruct (HasSuffix b "/") eqn:E; [done|].
  by rewrite HasSuffix_slash_slash.
Qed.

Lemma str_app_inv_tail (s t u : string) : s +:+ u = t +:+ u → s = t.
Proof.
  revert t. induction s as [|c s IH]; intros [|x t] H.
  - done.
  - apply (f_equal String.length) in H. rewrite str_app_empty_l, str_app_cons in H.
    simpl in H. rewrite str_app_length in H. lia.
  - apply (f_equal String.length) in H. rewrite str_app_empty_l, str_app_cons in H.
    simpl in H. rewrite str_app_length in H. lia.
  - rewrite !str_app_cons in H. injection H as -> H. by rewrite (IH _ H).
Qed.

(** A text that starts with a slash-terminated base matches the patterns
    only if the base does. *)
Lemma pathPrefix_base (w r : string) :
  HasSuffix w "/" = true → pathPrefix w = None → pathPrefix (w +:+ r) = None.
Proof.
  intros [r0 ->]%HasSuffix_inv Hp. destruct r0 as [|a [|b r1]].
  - rewrite str_app_empty_l, str_app_cons, str_app_empty_l. by destruct r as [|? [|? ?]].
  - rewrite !str_app_cons, !str_app_empty_l. unfold pathPrefix.
    destruct r; [done|]. by destruct (is_letter a).
  - rewrite !str_app_cons in *.
    destruct r1 as [|c r1]; rewrite ?str_app_empty_l, ?str_app_cons in *;
      unfold pathPrefix in *; by case_match.
Qed.

Lemma SplitN_two (s k v : string) :
  SplitN s "=" 2 = [k; v] → no_equals k = true ∧ s = k +:+ "=" +:+ v.
Proof.
  revert k. induction s as [|c s IH]; intros k H; [done|].
  rewrite SplitN_cons in H. destruct (Ascii.eqb_spec c "=") as [->|Hc].
  - rewrite SplitN_one in H. by simplify_eq.
  - destruct (SplitN s "=" 2) as [|h [|v' [|]]] eqn:E; simplify_eq.
    destruct (IH h eq_refl) as [Hh ->]. split; [|by rewrite str_app_cons].
    unfold no_equals in *. simpl. apply Ascii.eqb_neq in Hc. by rewrite Hc, Hh.
Qed.

End EntryFacts.

(** ** The path translator *)

(** C2, as the specification states it, at a base that ends in two slashes:
    no prefix that ends in exactly one slash gives the translated path. *)
Lemma translateWinPath_keeps_double_slash :
  ¬ ∃ b', endsInOneSlash b' ∧
          translateWinPath "/vol//" "c" "data" = b' +:+ "C" +:+ "/" +:+ "data".
Proof.
  intros (b' & [_ Hone] & Heq).
  change (translateWinPath "/vol//" "c" "data") with ("/vol//" +:+ "C/data") in Heq.
  change ("C" +:+ "/" +:+ "data") with "C/data" in Heq.
  apply str_app_inv_tail in Heq as <-. done.
Qed.

(** C2 (amended): for every base [b], drive letter [d] and sub-path [p],
    [translateWinPath b d p] is [b'], the upper-case drive, a slash and [p]
    with every backslash replaced by a slash, where [b'] is [b] itself when
    [b] already ends in a slash and [b] followed by a slash otherwise.  [b']
    always ends in a slash, and in exactly one unless [b] ends in two. *)
Theorem translateWinPath_spec (b p : string) (d : ascii) :
  is_letter d = true →
  translateWinPath b (String d EmptyString) p =
    withSlash b +:+ String (upper_byte d) EmptyString +:+ "/" +:+ ReplaceAll p "\" "/"
  ∧ withSlash b = (if HasSuffix b "/" then b else b +:+ "/")
  ∧ HasSuffix (withSlash b) "/" = true
  ∧ (HasSuffix b "//" = false → endsInOneSlash (withSlash b))
  ∧ is_upper (upper_byte d) = true
  ∧ no_backslash (ReplaceAll p "\" "/") = true.
Proof.
  intros Hd. repeat split.
  - apply translateWinPath_eq.
  - apply withSlash_suffix.
  - by apply withSlash_one.
  - by apply withSlash_one.
  - by apply upper_byte_letter.
  - by apply ReplaceAll_clean.
Qed.

Lemma translateWinPath_spec_witness :
  translateWinPath "/mnt/hgfs/docker/volumes" "c" "Users\me\src" =
    "/mnt/hgfs/docker/volumes/C/Users/me/src"
  ∧ endsInOneSlash (withSlash "/mnt/hgfs/docker/volumes").
Proof.
  destruct (translateWinPath_spec "/mnt/hgfs/docker/volumes" "Users\me\src" "c" eq_refl)
    as (H & _ & _ & Hone & _).
  split; [by rewrite H | by apply Hone].
Defined.

(** C3, as the specification states it, at a base that is itself a drive
    path: the translated path matches both patterns again, and a second
    pass over the rewritten bind entry changes it once more. *)
Lemma translated_path_rematches_drive_base :
  "D:/share" ≠ EmptyString
  ∧ is_letter "c" = true
  ∧ translateWinPath "D:/share" "c" "data" = "D:/share/C/data"
  ∧ FindStringSubmatch bindRegex 3 (translateWinPath "D:/share" "c" "data")
    = Some ["D:/share/C/data"; "D"; "share/C/data"; EmptyString]
  ∧ MatchString envPathRegex 2 (translateWinPath "D:/share" "c" "data") = true
  ∧ bindEntry "D:/share" "C:\data:/app" = Some "D:/share/C/data:/app"
  ∧ bindEntry "D:/share" "D:/share/C/data:/app" = Some "D:/share/D/share/C/data:/app"
  ∧ envEntry "D:/share" "P=C:\data" = Some "P=D:/share/C/data"
  ∧ envEntry "D:/share" "P=D:/share/C/data" = Some "P=D:/share/D/share/C/data".
Proof. repeat split; done || vm_compute; done. Qed.

(** The condition on the base cannot be dropped: when the base itself
    starts like a drive path, so does every translated path. *)
Lemma translated_path_rematched (b p : string) (d : ascii) :
  is_Some (pathPrefix (withSlash b)) →
  MatchString envPathRegex 2 (translateWinPath b (String d EmptyString) p) = true.
Proof.
  intros [[[x sep] rest] Hb]. rewrite MatchString_envPathRegex, translateWinPath_eq.
  apply bool_decide_eq_true. destruct (withSlash b) as [|c1 [|c2 [|c3 w]]]; try done.
  rewrite !str_app_cons. unfold pathPrefix in *. case_match; [eauto|done].
Qed.

(** C3 (amended): for every base [b] that, with its trailing slash ensured,
    does not itself start with a drive letter, a colon and a slash or
    backslash, no output of [translateWinPath b d p] matches [bindRegex] or
    [envPathRegex]; so the bind and the environment rewrite leave an entry
    they have already rewritten unchanged. *)
Theorem translated_path_not_rematched (b p : string) (d : ascii) :
  is_letter d = true →
  pathPrefix (withSlash b) = None →
  FindStringSubmatch bindRegex 3 (translateWinPath b (String d EmptyString) p) = None
  ∧ FindStringSubmatch envPathRegex 2 (translateWinPath b (String d EmptyString) p) = None
  ∧ MatchString envPathRegex 2 (translateWinPath b (String d EmptyString) p) = false
  ∧ (∀ s s', bindEntry b s = Some s' → bindEntry b s' = None)
  ∧ (∀ s s', envEntry b s = Some s' → envEntry b s' = None).
Proof.
  intros Hd Hb.
  assert (∀ r, pathPrefix (withSlash b +:+ r) = None) as Hout.
  { intros r. apply pathPrefix_base; [apply withSlash_suffix | done]. }
  assert (∀ dr pa, pathPrefix (translateWinPath b dr pa) = None) as Htr.
  { intros. rewrite translateWinPath_eq. apply Hout. }
  repeat split.
  - rewrite FindStringSubmatch_bindRegex. unfold bindMatch. by rewrite Htr.
  - rewrite FindStringSubmatch_envPathRegex. unfold envMatch. by rewrite Htr.
  - rewrite MatchString_envPathRegex, Htr. by apply bool_decide_false; intros [? ?].
  - intros s s'. rewrite !bindEntry_closed.
    destruct (bindMatch s) as [m|]; [|done]. intros [= <-].
    unfold bindMatch. rewrite translateWinPath_eq, !str_app_assoc. by rewrite Hout.
  - intros s s'. rewrite !envEntry_closed.
    destruct (SplitN s "=" 2) as [|k [|v [|]]] eqn:E; try done.
    destruct (envMatch v) as [m|]; [|done]. intros [= <-].
    apply SplitN_two in E as [Hk _]. rewrite (SplitN_first _ _ Hk).
    unfold envMatch. by rewrite Htr.
Qed.

Lemma translated_path_not_rematched_witness :
  bindEntry "/mnt/hgfs/docker/volumes/" "C:\data:/app" =
    Some "/mnt/hgfs/docker/volumes/C/data:/app"
  ∧ bindEntry "/mnt/hgfs/docker/volumes/" "/mnt/hgfs/docker/volumes/C/data:/app" = None.
Proof.
  destruct (translated_path_not_rematched "/mnt/hgfs/docker/volumes/" "data" "C"
              eq_refl eq_refl) as (_ & _ & _ & Hbind & _).
  split; [by vm_compute|]. apply (Hbind "C:\data:/app"). by vm_compute.
Defined.

(** ** The rewriting loops *)

Section LoopFacts.

Variable f : string → option string.

Lemma rewriteElem_hits (v : value) : hits f v = false → rewriteElem f v = v.
Proof.
  destruct v as [| | |s| |]; try done. simpl.
  destruct (f s); [|done]. intros H. apply bool_decide_eq_false in H.
  destruct H. eauto.
Qed.

(** The loop that updates the slice in place is a map over the slice. *)
Lemma rangeRewrite_from (todo i : nat) (l : list value) (m : bool) :
  i + todo = length l →
  rangeRewrite f todo i l m =
    (take i l ++ (rewriteElem f <$> drop i l), (m || existsb (hits f) (drop i l))%bool).
Proof.
  revert i l m. induction todo as [|todo IH]; intros i l m Hlen; simpl.
  - rewrite Nat.add_0_r in Hlen. subst i.
    by rewrite drop_all, firstn_all, app_nil_r, orb_false_r.
  - destruct (lookup_lt_is_Some_2 l i) as [v Hv]; [lia|].
    rewrite Hv, (drop_S _ _ _ Hv). cbn [fmap list_fmap existsb].
    assert (rangeRewrite f todo (S i) l m =
            (take (S i) l ++ (rewriteElem f <$> drop (S i) l),
             (m || existsb (hits f) (drop (S i) l))%bool)) as Hskip.
    { apply IH. lia. }
    assert (take (S i) l = take i l ++ [v]) as Htake by by apply take_S_r.
    destruct v as [| | |s| |]; simpl;
      try (by rewrite Hskip, Htake, <- app_assoc).
    destruct (f s) as [new|] eqn:Hf.
    + rewrite IH by (rewrite length_insert; lia).
      rewrite bool_decide_true by eauto. rewrite orb_true_r. simpl.
      rewrite drop_insert_lt by lia.
      rewrite take_insert_lt by lia.
      rewrite Htake, insert_app_r_alt by (rewrite length_take; lia).
      rewrite length_take, Nat.min_l, Nat.sub_diag by lia. simpl.
      by rewrite <- app_assoc.
    + rewrite Hskip, Htake, <- app_assoc.
      rewrite bool_decide_false; [done|]. by intros [? ?].
Qed.

Lemma rangeRewrite_spec (l : list value) (m : bool) :
  rangeRewrite f (length l) 0 l m =
    (rewriteElem f <$> l, (m || existsb (hits f) l)%bool).
Proof. by rewrite rangeRewrite_from. Qed.

Lemma existsb_hits_false (l : list value) :
  (∀ v, v ∈ l → hits f v = false) → existsb (hits f) l = false.
Proof.
  induction l as [|v l IH]; intros H; [done|]. simpl.
  rewrite H by apply list_elem_of_here. apply IH. intros. apply H. by apply list_elem_of_further.
Qed.

Lemma rangeRewrite_no_hit (l : list value) (m : bool) :
  (∀ v, v ∈ l → hits f v = false) → rangeRewrite f (length l) 0 l m = (l, m).
Proof.
  intros H. rewrite rangeRewrite_spec, existsb_hits_false, orb_false_r by done.
  f_equal. induction l as [|v l IH]; [done|]. cbn [fmap list_fmap].
  rewrite rewriteElem_hits by (apply H, list_elem_of_here).
  f_equal. apply IH. intros. apply H. by apply list_elem_of_further.
Qed.

End LoopFacts.

(** ** Bind and environment entries *)

Lemma take_while_all_true p (s : string) : all_bytes p s = true → take_while p s = s.
Proof.
  induction s as [|c s IH]; [done|]. simpl.
  intros [-> Hs]%andb_true_iff. by rewrite IH.
Qed.

(** A bind entry splits into drive, separator, a sub-path without colon and
    what follows it (nothing, or text from a colon on); the rewritten entry
    is the translated path and what follows up to the first line feed. *)
Lemma bindEntry_parts (b p t : string) (d sep : ascii) :
  is_letter d = true → is_sep sep = true →
  p ≠ EmptyString → all_bytes not_colon p = true →
  (t = EmptyString ∨ first_byte t = Some ":"%char) →
  bindEntry b (String d (String ":" (String sep (p +:+ t)))) =
    Some (translateWinPath b (String d EmptyString) p +:+ take_while dot t).
Proof.
  intros Hd Hsep Hp Hcolon Ht. rewrite bindEntry_closed. unfold bindMatch, pathPrefix.
  rewrite Hd, Hsep. simpl.
  destruct (take_while_all not_colon p t Hcolon) as [-> ->].
  { destruct Ht as [->| Ht]; [done|]. by rewrite Ht. }
  by destruct p.
Qed.

(** What follows the sub-path is kept whole when it has no line feed. *)
Lemma bindEntry_keeps_suffix (b p t : string) (d sep : ascii) :
  is_letter d = true → is_sep sep = true →
  p ≠ EmptyString → all_bytes not_colon p = true →
  (t = EmptyString ∨ first_byte t = Some ":"%char) →
  no_line_feed t = true →
  bindEntry b (String d (String ":" (String sep (p +:+ t)))) =
    Some (translateWinPath b (String d EmptyString) p +:+ t).
Proof.
  intros. rewrite bindEntry_parts by done. by rewrite take_while_all_true.
Qed.

(** An element is rewritten only if it is a string that [bindRegex] matches. *)
Lemma rewriteBinds_elements (b : string) (binds : list value) (m : bool) :
  (rewriteBinds b binds m).1 = rewriteElem (bindEntry b) <$> binds
  ∧ ∀ v, hits (bindEntry b) v = false → rewriteElem (bindEntry b) v = v.
Proof.
  unfold rewriteBinds. rewrite rangeRewrite_spec. split; [done|].
  apply rewriteElem_hits.
Qed.

Lemma envEntry_parts (b k p : string) (d sep : ascii) :
  no_equals k = true → is_letter d = true → is_sep sep = true →
  envEntry b (k +:+ "=" +:+ String d (String ":" (String sep p))) =
    Some (k +:+ "=" +:+ translateWinPath b (String d EmptyString) (take_while dot p)).
Proof.
  intros Hk Hd Hsep. rewrite envEntry_closed, SplitN_first by done.
  unfold envMatch, pathPrefix. by rewrite Hd, Hsep.
Qed.

Lemma rewriteEnvs_elements (b : string) (envs : list value) (m : bool) :
  (rewriteEnvs b envs m).1 = rewriteElem (envEntry b) <$> envs
  ∧ ∀ v, hits (envEntry b) v = false → rewriteElem (envEntry b) v = v.
Proof.
  unfold rewriteEnvs. rewrite rangeRewrite_spec. split; [done|].
  apply rewriteElem_hits.
Qed.

(** An element without an equals sign is not rewritten. *)
Lemma envEntry_no_equals (b s : string) : no_equals s = true → envEntry b s = None.
Proof. intros Hs. by rewrite envEntry_closed, SplitN_none. Qed.

(** The scenarios of the specification. *)
Example scenario_bind :
  bindEntry "/mnt/hgfs/docker/volumes/" "C:\data:/app" =
    Some "/mnt/hgfs/docker/volumes/C/data:/app".
Proof. by vm_compute. Qed.

Example scenario_bind_mode : bindEntry "/vol/" "C:\data:/app:ro" = Some "/vol/C/data:/app:ro".
Proof. by vm_compute. Qed.

Example scenario_env :
  envEntry "/mnt/hgfs/docker/volumes/" "DB_PATH=C:\config\db" =
    Some "DB_PATH=/mnt/hgfs/docker/volumes/C/config/db".
Proof. by vm_compute. Qed.

Example scenario_env_plain : envEntry "/mnt/hgfs/docker/volumes/" "NAME=value" = None.
Proof. by vm_compute. Qed.

(** C5: the bind entry whose text after the sub-path continues after a
    line feed.  The program keeps what follows the sub-path only up to the
    line feed: the last capture group stops there, and the rest of the
    element is dropped, where the claim has the whole suffix appended. *)
Theorem bind_suffix_cut_at_line_feed :
  bindsOf (mapOf (SampleJSON.Unmarshal sampleBindLineFeed))
    = [JString ("C:\data:/app" +:+ String "010" "ro")]
  ∧ FindStringSubmatch bindRegex 3 ("C:\data:/app" +:+ String "010" "ro")
    = Some ["C:\data:/app"; "C"; "data"; ":/app"]
  ∧ rewriteBinds "/vol/" [JString ("C:\data:/app" +:+ String "010" "ro")] false
    = ([JString "/vol/C/data:/app"], true)
  ∧ bindsOf (rewriteHostConfig "/vol/" "192.168.137.25"
               (mapOf (SampleJSON.Unmarshal sampleBindLineFeed)) false).1.1
    = [JString "/vol/C/data:/app"]
  ∧ translateWinPath "/vol/" "C" "data" +:+ (":/app" +:+ String "010" "ro")
    = "/vol/C/data:/app" +:+ String "010" "ro"
  ∧ "/vol/C/data:/app" ≠ "/vol/C/data:/app" +:+ String "010" "ro".
Proof. repeat split; by vm_compute. Qed.

(** C6: the environment entry whose value continues after a line feed.  The
    program translates the value only up to the line feed and drops the
    rest, where the claim has the whole value translated. *)
Theorem env_value_cut_at_line_feed :
  envsOf (mapOf (SampleJSON.Unmarshal sampleEnvLineFeed))
    = [JString ("P=C:\a" +:+ String "010" "b")]
  ∧ FindStringSubmatch envPathRegex 2 ("C:\a" +:+ String "010" "b")
    = Some ["C:\a"; "C"; "a"]
  ∧ rewriteEnvs "/vol/" [JString ("P=C:\a" +:+ String "010" "b")] false
    = ([JString "P=/vol/C/a"], true)
  ∧ envsOf (rewriteEnv "/vol/" (mapOf (SampleJSON.Unmarshal sampleEnvLineFeed)) false).1
    = [JString "P=/vol/C/a"]
  ∧ "P=" +:+ translateWinPath "/vol/" "C" ("a" +:+ String "010" "b")
    = "P=/vol/C/a" +:+ String "010" "b"
  ∧ "P=/vol/C/a" ≠ "P=/vol/C/a" +:+ String "010" "b".
Proof. repeat split; by vm_compute. Qed.

(** C10: the environment entry with a later equals sign after a line feed.
    [SplitN] cuts at the first equals sign only and the value is all of the
    remainder, the later equals sign included, as the claim has it; the
    remainder matches [envPathRegex]; but the program translates the value
    only up to the line feed and drops the rest, the later equals sign with
    it, where the claim has the whole remainder translated as one value. *)
Theorem env_later_equals_cut_at_line_feed :
  envsOf (mapOf (SampleJSON.Unmarshal sampleEnvLaterEquals))
    = [JString ("OPTS=C:\cfg\a=b" +:+ String "010" "c=d")]
  ∧ SplitN ("OPTS=C:\cfg\a=b" +:+ String "010" "c=d") "=" 2
    = ["OPTS"; "C:\cfg\a=b" +:+ String "010" "c=d"]
  ∧ MatchString envPathRegex 2 ("C:\cfg\a=b" +:+ String "010" "c=d") = true
  ∧ FindStringSubmatch envPathRegex 2 ("C:\cfg\a=b" +:+ String "010" "c=d")
    = Some ["C:\cfg\a=b"; "C"; "cfg\a=b"]
  ∧ envEntry "/vol/" ("OPTS=C:\cfg\a=b" +:+ String "010" "c=d")
    = Some "OPTS=/vol/C/cfg/a=b"
  ∧ rewriteEnvs "/vol/" [JString ("OPTS=C:\cfg\a=b" +:+ String "010" "c=d")] false
    = ([JString "OPTS=/vol/C/cfg/a=b"], true)
  ∧ envsOf (rewriteEnv "/vol/" (mapOf (SampleJSON.Unmarshal sampleEnvLaterEquals)) false).1
    = [JString "OPTS=/vol/C/cfg/a=b"]
  ∧ "OPTS=" +:+ translateWinPath "/vol/" "C" ("cfg\a=b" +:+ String "010" "c=d")
    = "OPTS=/vol/C/cfg/a=b" +:+ String "010" "c=d"
  ∧ "OPTS=/vol/C/cfg/a=b" ≠ "OPTS=/vol/C/cfg/a=b" +:+ String "010" "c=d".
Proof. repeat split; by vm_compute. Qed.

(** ** [modifyAndExtract] *)

Lemma started_fmap (p targetIP : string) (ports : list string) :
  started p ((λ hostPort, (hostPort, targetIP)) <$> ports) = length (filter (λ q, q = p) ports).
Proof.
  unfold started. induction ports as [|q ports IH]; [done|]. cbn [fmap list_fmap].
  rewrite !filter_cons. simpl. destruct (decide (q = p)); simpl; by rewrite IH.
Qed.

Lemma hostPorts_descriptors (bindings : value) (p : string) :
  length (filter (λ q, q = p) (hostPorts bindings)) =
    length (filter (λ b, descriptorPort b = Some p)
              (match bindings with JArray bList => bList | _ => [] end)).
Proof.
  destruct bindings as [| | | |bList|]; try done. simpl.
  induction bList as [|b bList IH]; [done|]. simpl.
  rewrite filter_app, length_app, filter_cons, IH.
  destruct b as [| | | | |bMap]; simpl; try done.
  destruct (bMap !! "HostPort") as [[| | |hp| |]|]; simpl; try done.
  rewrite filter_cons, filter_nil.
  destruct (decide (hp = p)) as [->|Hne].
  - by rewrite decide_True.
  - rewrite decide_False; [done|]. congruence.
Qed.

(** Every descriptor that carries a host port is reported once. *)
Lemma discoverPorts_occurrences (containerMap : gmap string value) (p : string) :
  length (filter (λ q, q = p) (discoverPorts (portBindingsOf containerMap))) =
    occurrences p containerMap.
Proof.
  unfold occurrences, descriptors, discoverPorts.
  induction (map_to_list (portBindingsOf containerMap)) as [|[k v] l IH]; [done|].
  simpl. by rewrite !filter_app, !length_app, IH, hostPorts_descriptors.
Qed.

Lemma rewriteHostConfig_forwarders (basePath targetIP : string)
    (containerMap : gmap string value) (m : bool) :
  (rewriteHostConfig basePath targetIP containerMap m).1.2 =
    (λ hostPort, (hostPort, targetIP)) <$> discoverPorts (portBindingsOf containerMap).
Proof.
  unfold rewriteHostConfig, portBindingsOf, discoverPorts.
  destruct (containerMap !! "HostConfig") as [[| | | | |hostConfig]|]; try done.
  destruct (hostConfig !! "Binds") as [[| | | |binds|]|];
    try destruct (rewriteBinds basePath binds m);
    by destruct (hostConfig !! "PortBindings") as [[| | | | |pb]|].
Qed.

Lemma rewriteHostConfig_no_hit (basePath targetIP : string)
    (containerMap : gmap string value) (m : bool) :
  (∀ v, v ∈ bindsOf containerMap → hits (bindEntry basePath) v = false) →
  (rewriteHostConfig basePath targetIP containerMap m).1.1 = containerMap
  ∧ (rewriteHostConfig basePath targetIP containerMap m).2 = m.
Proof.
  unfold rewriteHostConfig, bindsOf.
  destruct (containerMap !! "HostConfig") as [[| | | | |hostConfig]|] eqn:Hhc; try done.
  destruct (hostConfig !! "Binds") as [[| | | |binds|]|] eqn:Hb; simpl;
    intros Hno; try (by rewrite insert_id).
  unfold rewriteBinds. rewrite rangeRewrite_no_hit by done. simpl.
  by rewrite (insert_id hostConfig), insert_id.
Qed.

Lemma rewriteEnv_no_hit (basePath : string) (containerMap : gmap string value) (m : bool) :
  (∀ v, v ∈ envsOf containerMap → hits (envEntry basePath) v = false) →
  rewriteEnv basePath containerMap m = (containerMap, m).
Proof.
  unfold rewriteEnv, envsOf.
  destruct (containerMap !! "Env") as [[| | | |envs|]|] eqn:He; try done.
  intros Hno. unfold rewriteEnvs. rewrite rangeRewrite_no_hit by done.
  by rewrite insert_id.
Qed.

Section ModifyAndExtractFacts.

Variable Unmarshal : string → unmarshalled.
Variable Marshal : gmap string value → string.

(** C4: a body that does not decode as a JSON object (the decoder reports
    an error, or the body is the literal null, which leaves the map nil)
    comes back byte for byte; no forwarder is started, [modified] stays
    false, and the call returns normally. *)
Theorem modifyAndExtract_not_an_object (req : Request) (bodyBytes basePath targetIP : string) :
  Body req = Reader bodyBytes →
  Unmarshal bodyBytes = UnmarshalError ∨ Unmarshal bodyBytes = UnmarshalNull →
  Body (request (modifyAndExtract Unmarshal Marshal req basePath targetIP)) = Reader bodyBytes
  ∧ forwarders (modifyAndExtract Unmarshal Marshal req basePath targetIP) = []
  ∧ modified (modifyAndExtract Unmarshal Marshal req basePath targetIP) = false.
Proof.
  intros Hbody Hdec. unfold modifyAndExtract. rewrite Hbody.
  by destruct Hdec as [-> | ->].
Qed.

(** C9: when the payload decodes and no string in its binds matches
    [bindRegex] and no entry of its environment has a value that matches
    [envPathRegex], the request keeps its body byte for byte (with the
    content length set to its length), [modified] is false, and
    [startForwarder] is started once for every binding descriptor that
    carries a host port, duplicates included. *)
Theorem modifyAndExtract_ports_only (req : Request) (bodyBytes basePath targetIP : string)
    (containerMap : gmap string value) :
  Body req = Reader bodyBytes →
  Unmarshal bodyBytes = UnmarshalObject containerMap →
  existsb (hits (bindEntry basePath)) (bindsOf containerMap) = false →
  existsb (hits (envEntry basePath)) (envsOf containerMap) = false →
  request (modifyAndExtract Unmarshal Marshal req basePath targetIP) =
    {| Body := Reader bodyBytes; ContentLength := Z.of_nat (String.length bodyBytes) |}
  ∧ modified (modifyAndExtract Unmarshal Marshal req basePath targetIP) = false
  ∧ forwarders (modifyAndExtract Unmarshal Marshal req basePath targetIP) =
      (λ hostPort, (hostPort, targetIP)) <$> discoverPorts (portBindingsOf containerMap)
  ∧ ∀ p, started p (forwarders (modifyAndExtract Unmarshal Marshal req basePath targetIP)) =
         occurrences p containerMap.
Proof.
  intros Hbody Hdec Hbinds Henvs.
  assert (∀ f l, existsb (hits f) l = false → ∀ v, v ∈ l → hits f v = false) as Hall.
  { intros f l Hl v Hv. apply not_true_is_false. intros Hhit.
    assert (existsb (hits f) l = true); [|congruence].
    apply existsb_exists. exists v. by rewrite <- list_elem_of_In. }
  pose proof (Hall _ _ Hbinds) as Hbinds'. pose proof (Hall _ _ Henvs) as Henvs'.
  clear Hall Hbinds Henvs.
  assert (modifyAndExtract Unmarshal Marshal req basePath targetIP =
    {| request := {| Body := Reader bodyBytes;
                     ContentLength := Z.of_nat (String.length bodyBytes) |};
       forwarders := (λ hostPort, (hostPort, targetIP)) <$>
                       discoverPorts (portBindingsOf containerMap);
       modified := false |}) as ->.
  { unfold modifyAndExtract. rewrite Hbody, Hdec. simpl.
    pose proof (rewriteHostConfig_forwarders basePath targetIP containerMap false) as Hf.
    destruct (rewriteHostConfig_no_hit basePath targetIP containerMap false Hbinds')
      as [Hm Hflag].
    destruct (rewriteHostConfig basePath targetIP containerMap false) as [[cm calls] fl].
    simpl in *. subst. by rewrite rewriteEnv_no_hit. }
  repeat split. intros p. simpl.
  by rewrite started_fmap, discoverPorts_occurrences.
Qed.

End ModifyAndExtractFacts.

(** The body of the fifth scenario of the specification. *)
Lemma modifyAndExtract_not_an_object_witness :
  Body (request (modifyAndExtract SampleJSON.Unmarshal (λ _, EmptyString)
                   {| Body := Reader "not json"; ContentLength := 8 |}
                   "/mnt/hgfs/docker/volumes/" "192.168.137.25")) = Reader "not json"
  ∧ forwarders (modifyAndExtract SampleJSON.Unmarshal (λ _, EmptyString)
                  {| Body := Reader "not json"; ContentLength := 8 |}
                  "/mnt/hgfs/docker/volumes/" "192.168.137.25") = []
  ∧ modified (modifyAndExtract SampleJSON.Unmarshal (λ _, EmptyString)
                {| Body := Reader "not json"; ContentLength := 8 |}
                "/mnt/hgfs/docker/volumes/" "192.168.137.25") = false.
Proof.
  apply (modifyAndExtract_not_an_object SampleJSON.Unmarshal (λ _, EmptyString)
           {| Body := Reader "not json"; ContentLength := 8 |} "not json").
  - reflexivity.
  - left. vm_compute. reflexivity.
Defined.

(** A payload that publishes the port 54322 twice and the port 8000 once,
    with a bind and an environment entry that are not drive paths. *)
Lemma modifyAndExtract_ports_only_witness :
  forwarders (modifyAndExtract SampleJSON.Unmarshal (λ _, EmptyString)
                {| Body := Reader samplePorts; ContentLength := 0 |}
                "/mnt/hgfs/docker/volumes/" "192.168.137.25")
    ≡ₚ [("54322", "192.168.137.25"); ("54322", "192.168.137.25"); ("8000", "192.168.137.25")]
  ∧ request (modifyAndExtract SampleJSON.Unmarshal (λ _, EmptyString)
               {| Body := Reader samplePorts; ContentLength := 0 |}
               "/mnt/hgfs/docker/volumes/" "192.168.137.25")
    = {| Body := Reader samplePorts; ContentLength := Z.of_nat (String.length samplePorts) |}.
Proof.
  destruct (modifyAndExtract_ports_only SampleJSON.Unmarshal (λ _, EmptyString)
              {| Body := Reader samplePorts; ContentLength := 0 |} samplePorts
              "/mnt/hgfs/docker/volumes/" "192.168.137.25"
              (mapOf (SampleJSON.Unmarshal samplePorts)))
    as (Hreq & _ & Hfw & _).
  - reflexivity.
  - vm_compute. reflexivity.
  - vm_compute. reflexivity.
  - vm_compute. reflexivity.
  - split; [|exact Hreq]. rewrite Hfw. vm_compute.
    reflexivity.
Defined.

(** ** The bridge manager *)

Module ForwarderFacts.
Import Forwarder.

Section Counting.

Variables P Q R : goroutine → bool.

Lemma count_app_one (gs : list goroutine) g :
  count P (gs ++ [g]) = count P gs + Nat.b2n (P g).
Proof. unfold count. rewrite sum_list_with_app. simpl. lia. Qed.

Lemma count_insert (gs : list goroutine) i g g' :
  gs !! i = Some g →
  count P (<[i := g']> gs) + Nat.b2n (P g) = count P gs + Nat.b2n (P g').
Proof.
  unfold count. revert i. induction gs as [|x gs IH]; intros [|i] Hi; simplify_eq/=.
  - lia.
  - specialize (IH i Hi). lia.
Qed.

Lemma count_pos (gs : list goroutine) i g :
  gs !! i = Some g → P g = true → 1 ≤ count P gs.
Proof.
  unfold count. revert i. induction gs as [|x gs IH]; intros [|i] Hi Hg; simplify_eq/=.
  - rewrite Hg. simpl. lia.
  - specialize (IH i Hi Hg). lia.
Qed.

Lemma count_two (gs : list goroutine) i j g g' :
  i ≠ j → gs !! i = Some g → gs !! j = Some g' → P g = true → P g' = true →
  2 ≤ count P gs.
Proof.
  revert i j. induction gs as [|x gs IH]; intros [|i] [|j] Hij Hi Hj Hg Hg';
    simplify_eq/=.
  - pose proof (count_pos gs j g' Hj Hg'). unfold count in *. simpl. rewrite Hg. simpl. lia.
  - pose proof (count_pos gs i g Hi Hg). unfold count in *. simpl. rewrite Hg'. simpl. lia.
  - assert (i ≠ j) by congruence.
    specialize (IH i j ltac:(done) Hi Hj Hg Hg'). unfold count in *. simpl. lia.
Qed.

Lemma count_split (gs : list goroutine) :
  (∀ g, Nat.b2n (P g) = Nat.b2n (Q g) + Nat.b2n (R g)) →
  count P gs = count Q gs + count R gs.
Proof.
  intros H. unfold count. induction gs as [|x gs IH]; simpl; [done|].
  rewrite (H x). lia.
Qed.

Lemma count_add_le (gs : list goroutine) :
  (∀ g, Nat.b2n (Q g) + Nat.b2n (R g) ≤ Nat.b2n (P g)) →
  count Q gs + count R gs ≤ count P gs.
Proof.
  intros H. unfold count. induction gs as [|x gs IH]; simpl; [done|].
  specialize (H x). lia.
Qed.

End Counting.

Lemma count_le (P Q : goroutine → bool) (gs : list goroutine) :
  (∀ g, P g = true → Q g = true) → count P gs ≤ count Q gs.
Proof.
  intros H. unfold count. induction gs as [|x gs IH]; simpl; [done|].
  specialize (H x). destruct (P x); simpl; [rewrite H by done; simpl|]; lia.
Qed.

Lemma winners_split (p : string) (σ : state) :
  winners p σ = countFor at_set p σ + countFor has_set p σ.
Proof.
  apply count_split. intros [q a]. unfold for_port, won. simpl.
  destruct (bool_decide (q = p)); [|done]. by destruct a as [| | | | | | |[]].
Qed.

(** A goroutine at the test excludes any goroutine at the assignment: both
    would hold the mutex. *)
Lemma at_test_alone (p : string) (σ : state) i g :
  inv σ → goroutines σ !! i = Some g → at_ g = AtTest → countFor at_set p σ = 0.
Proof.
  intros [Hmx _] Hi Hg.
  assert (count at_test (goroutines σ) + countFor at_set p σ ≤ count holds_mutex (goroutines σ)).
  { apply count_add_le. intros [q a]. unfold for_port. simpl.
    destruct (bool_decide (q = p)), a; simpl; lia. }
  assert (1 ≤ count at_test (goroutines σ)).
  { apply (count_pos _ _ i g); [done|]. unfold at_test. by rewrite Hg. }
  destruct (forwardMutex σ); simpl in *; lia.
Qed.

Lemma inv_init : inv init.
Proof.
  split; [done|]. intros p. unfold winners, countFor, count. simpl.
  repeat split; intros; lia.
Qed.

Lemma active_insert (σ : state) (q p : string) :
  default false (<[q := true]> (activeForwards σ) !! p) =
    if decide (q = p) then true else active σ p.
Proof.
  unfold active. destruct (decide (q = p)) as [->|Hne].
  - by rewrite lookup_insert_eq.
  - by rewrite lookup_insert_ne.
Qed.

(** The effect of one statement of goroutine [i] on the counts. *)
Ltac moved Hg p g' :=
  let count_of X :=
    pose proof (count_insert X _ _ _ g' Hg) in
  unfold winners, countFor in *; simpl;
  count_of holds_mutex;
  count_of (λ g, for_port p g && won g)%bool;
  count_of (λ g, for_port p g && has_set g)%bool;
  count_of (λ g, for_port p g && at_set g)%bool.

Lemma inv_step (σ σ' : state) : inv σ → step σ σ' → inv σ'.
Proof.
  intros Hinv [a Hex]. destruct a as [q|i bindOk]; simpl in Hex.
  - simplify_eq. destruct Hinv as [Hmx Hp]. split; simpl.
    + rewrite count_app_one. simpl. lia.
    + intros p. destruct (Hp p) as (H1 & H2 & H3).
      unfold winners, countFor, active in *. simpl.
      rewrite !count_app_one. simpl. rewrite !andb_false_r. simpl.
      rewrite !Nat.add_0_r. done.
  - destruct (goroutines σ !! i) as [[q a]|] eqn:Hg; [|done]. simpl in Hex.
    pose proof (λ p, winners_split p σ) as Hsplit.
    pose proof (λ p, at_test_alone p σ i _ Hinv Hg) as Halone.
    destruct Hinv as [Hmx Hp].
    destruct a as [| | | | | | |r]; simpl in *.
    + (* Lock *)
      destruct (forwardMutex σ) eqn:Hm; simplify_eq. split.
      * moved Hg q (Goroutine q AtTest). simpl in *. lia.
      * intros p. destruct (Hp p) as (H1 & H2 & H3). unfold active in *.
        moved Hg p (Goroutine q AtTest). simpl in *. rewrite !andb_false_r in *. simpl in *.
        repeat split; intros; try (specialize (H2 ltac:(done)));
          try (specialize (H3 ltac:(done))); lia.
    + (* the test *)
      destruct (active σ q) eqn:Hact; simplify_eq; split.
      * moved Hg q (Goroutine q AtUnlockReturn). simpl in *. lia.
      * intros p. destruct (Hp p) as (H1 & H2 & H3). unfold active in *.
        moved Hg p (Goroutine q AtUnlockReturn). simpl in *. rewrite !andb_false_r in *. simpl in *.
        repeat split; intros; try (specialize (H2 ltac:(done)));
          try (specialize (H3 ltac:(done))); lia.
      * moved Hg q (Goroutine q AtSet). simpl in *. lia.
      * intros p. destruct (Hp p) as (H1 & H2 & H3).
        specialize (Hsplit p). specialize (Halone p eq_refl).
        unfold active in *.
        moved Hg p (Goroutine q AtSet). simpl in *. rewrite ?andb_false_r, ?andb_true_r in *.
        unfold for_port in *. simpl in *.
        destruct (decide (q = p)) as [->|Hne].
        -- rewrite !bool_decide_true in * by done. simpl in *.
           specialize (H2 Hact). repeat split; intros; [lia|lia|congruence].
        -- rewrite !bool_decide_false in * by done. simpl in *.
           repeat split; intros; try (specialize (H2 ltac:(done)));
             try (specialize (H3 ltac:(done))); lia.
    + (* Unlock, return *)
      simplify_eq. split.
      * moved Hg q (Goroutine q (Returned NoOp)). simpl in *. destruct (forwardMutex σ); simpl in *; lia.
      * intros p. destruct (Hp p) as (H1 & H2 & H3). unfold active in *.
        moved Hg p (Goroutine q (Returned NoOp)). simpl in *. rewrite !andb_false_r in *. simpl in *.
        repeat split; intros; try (specialize (H2 ltac:(done)));
          try (specialize (H3 ltac:(done))); lia.
    + (* the assignment *)
      simplify_eq. split.
      * moved Hg q (Goroutine q AtUnlock). simpl in *. lia.
      * intros p. destruct (Hp p) as (H1 & H2 & H3). specialize (Hsplit p).
        unfold active in *. simpl. rewrite active_insert. unfold active.
        moved Hg p (Goroutine q AtUnlock). simpl in *. rewrite ?andb_false_r, ?andb_true_r in *.
        unfold for_port in *. simpl in *.
        destruct (decide (q = p)) as [->|Hne].
        -- rewrite !bool_decide_true in * by done. simpl in *.
           repeat split; intros; [lia|congruence|lia].
        -- rewrite !bool_decide_false in * by done. simpl in *.
           repeat split; intros; try (specialize (H2 ltac:(done)));
             try (specialize (H3 ltac:(done))); lia.
    + (* Unlock *)
      simplify_eq. split.
      * moved Hg q (Goroutine q AtListen). simpl in *. destruct (forwardMutex σ); simpl in *; lia.
      * intros p. destruct (Hp p) as (H1 & H2 & H3). unfold active in *.
        moved Hg p (Goroutine q AtListen). simpl in *. rewrite ?andb_false_r, ?andb_true_r in *.
        unfold for_port in *. simpl in *.
        repeat split; intros; try (specialize (H2 ltac:(done)));
          try (specialize (H3 ltac:(done))); lia.
    + (* net.Listen *)
      simplify_eq. split.
      * moved Hg q (Goroutine q (if bindOk then Accepting else Returned BindFailed)). destruct bindOk; simpl in *; lia.
      * intros p. destruct (Hp p) as (H1 & H2 & H3). unfold active in *.
        moved Hg p (Goroutine q (if bindOk then Accepting else Returned BindFailed)). destruct bindOk; simpl in *;
          rewrite ?andb_false_r, ?andb_true_r in *;
          unfold for_port in *; simpl in *;
          repeat split; intros; try (specialize (H2 ltac:(done)));
            try (specialize (H3 ltac:(done))); lia.
    + (* Accept *)
      simplify_eq. by split.
    + done.
Qed.

Lemma inv_steps (σ σ' : state) : inv σ → rtc step σ σ' → inv σ'.
Proof. intros Hinv Hsteps. induction Hsteps; eauto using inv_step. Qed.

Lemma inv_reachable (σ : state) : reachable σ → inv σ.
Proof. apply inv_steps, inv_init. Qed.

Lemma execs_steps (sched : list action) (σ σ' : state) :
  execs σ sched = Some σ' → rtc step σ σ'.
Proof.
  revert σ. induction sched as [|a sched IH]; intros σ H; simpl in H.
  - by simplify_eq.
  - destruct (exec σ a) as [σ1|] eqn:Ha; [|done].
    eapply rtc_l; [by exists a|]. by apply IH.
Qed.

(** The map only grows. *)
Lemma active_step (σ σ' : state) (p : string) :
  step σ σ' → active σ p = true → active σ' p = true.
Proof.
  intros [a Hex] Hact. destruct a as [q|i bindOk]; simpl in Hex; [by simplify_eq|].
  destruct (goroutines σ !! i) as [[q a]|]; [|done]. simpl in Hex.
  destruct a; simpl in Hex; repeat case_match; simplify_eq; try done.
  unfold active at 1. simpl. rewrite active_insert. by case_decide.
Qed.

Lemma active_steps (σ σ' : state) (p : string) :
  rtc step σ σ' → active σ p = true → active σ' p = true.
Proof. induction 1; eauto using active_step. Qed.

(** A goroutine for a port that is in the map, on the path that returns at
    line 184, stays on that path. *)
Lemma noop_path_step (σ σ' : state) (p : string) i a :
  step σ σ' → active σ p = true →
  goroutines σ !! i = Some (Goroutine p a) → noop_path a = true →
  ∃ a', goroutines σ' !! i = Some (Goroutine p a') ∧ noop_path a' = true.
Proof.
  intros [act Hex] Hact Hi Ha. destruct act as [q|j bindOk]; simpl in Hex.
  - simplify_eq. exists a. split; [|done]. simpl.
    rewrite lookup_app_l; [done|]. by eapply lookup_lt_Some.
  - destruct (decide (j = i)) as [->|Hne];
      [rewrite Hi in Hex
      |destruct (goroutines σ !! j) as [[q b]|] eqn:Hj; [|done]]; simpl in Hex.
    + destruct a as [| | | | | | |[]]; simplify_eq/=.
      * destruct (forwardMutex σ); simplify_eq. exists AtTest. split; [|done].
        simpl. apply list_lookup_insert_eq. by eapply lookup_lt_Some.
      * rewrite Hact in Hex. simplify_eq. exists AtUnlockReturn. split; [|done].
        simpl. apply list_lookup_insert_eq. by eapply lookup_lt_Some.
      * exists (Returned NoOp). split; [|done].
        simpl. apply list_lookup_insert_eq. by eapply lookup_lt_Some.
    + exists a. split; [|done].
      destruct b; simpl in Hex; repeat case_match; simplify_eq; simpl;
        by rewrite ?list_lookup_insert_ne.
Qed.

Lemma noop_path_steps (σ σ' : state) (p : string) i a :
  rtc step σ σ' → active σ p = true →
  goroutines σ !! i = Some (Goroutine p a) → noop_path a = true →
  ∃ a', goroutines σ' !! i = Some (Goroutine p a') ∧ noop_path a' = true.
Proof.
  intros Hsteps. revert a. induction Hsteps as [|σ σ1 σ' Hstep _ IH]; intros a Hact Hi Ha.
  - eauto.
  - destruct (noop_path_step _ _ _ _ _ Hstep Hact Hi Ha) as (a1 & Hi1 & Ha1).
    eapply IH; eauto using active_step.
Qed.



End ForwarderFacts.

Section BridgeManager.
Import Forwarder ForwarderFacts.



End BridgeManager.

(** * Further properties of the program *)

(** ** The path translator *)

Section TranslatorFacts.

Lemma ToUpper_length (s : string) : String.length (ToUpper s) = String.length s.
Proof. induction s as [|c s IH]; [done|]. simpl. by rewrite IH. Qed.

Lemma ReplaceAll_byte_length (s : string) old new :
  String.length (ReplaceAll s old (String new EmptyString)) = String.length s.
Proof.
  induction s as [|c s IH]; [done|]. simpl.
  destruct (Ascii.eqb c old); rewrite ?str_app_cons, ?str_app_empty_l; simpl; by rewrite IH.
Qed.

Lemma withSlash_idem (b : string) : withSlash (withSlash b) = withSlash b.
Proof. unfold withSlash at 1. by rewrite withSlash_suffix. Qed.

(** X1: two calls with the same base and one-byte drives below 128 (the
    drive letters among them) give the same path exactly when the drives
    agree up to case and the sub-paths agree up to the kind of slash. *)
Theorem translateWinPath_collision (b p p' : string) (d d' : ascii) :
  is_ascii d = true → is_ascii d' = true →
  translateWinPath b (String d EmptyString) p = translateWinPath b (String d' EmptyString) p'
  ↔ upper_byte d = upper_byte d' ∧ ReplaceAll p "\" "/" = ReplaceAll p' "\" "/".
Proof.
  intros _ _. rewrite !translateWinPath_eq. split.
  - intros H. apply (inj (String.app _)) in H. simpl in H.
    rewrite !str_app_cons, !str_app_empty_l in H. by simplify_eq.
  - intros [Hd Hp]. simpl. by rewrite Hd, Hp.
Qed.

Lemma translateWinPath_collision_witness :
  translateWinPath "/vol" "c" "a\b" = translateWinPath "/vol" "C" "a/b".
Proof.
  apply (proj2 (translateWinPath_collision "/vol" "a\b" "a/b" "c" "C" eq_refl eq_refl)).
  split; reflexivity.
Defined.

(** X2: a base without its trailing slash and the same base with it give
    the same paths. *)
Theorem translateWinPath_base_slash (b drive path : string) :
  translateWinPath (withSlash b) drive path = translateWinPath b drive path
  ∧ (HasSuffix b "/" = false →
     translateWinPath (b +:+ "/") drive path = translateWinPath b drive path).
Proof.
  split.
  - by rewrite !translateWinPath_eq, withSlash_idem.
  - intros Hb. rewrite !translateWinPath_eq. f_equal.
    unfold withSlash. by rewrite HasSuffix_app, Hb.
Qed.

Lemma translateWinPath_base_slash_witness :
  translateWinPath "/vol/" "c" "a\b" = translateWinPath "/vol" "c" "a\b".
Proof. exact (proj2 (translateWinPath_base_slash "/vol" "c" "a\b") eq_refl). Defined.

(** X3: for a drive of bytes below 128 (a drive letter among them), the
    translated path is as long as the base with its slash, the drive, one
    slash and the sub-path: translation neither drops nor adds a byte of
    the sub-path. *)
Theorem translateWinPath_length (b drive path : string) :
  all_bytes is_ascii drive = true →
  String.length (translateWinPath b drive path) =
    String.length (withSlash b) + String.length drive + 1 + String.length path
  ∧ String.length b ≤ String.length (withSlash b) ≤ String.length b + 1.
Proof.
  intros _. split.
  - rewrite translateWinPath_eq, !str_app_length, ToUpper_length, ReplaceAll_byte_length.
    simpl. lia.
  - unfold withSlash. destruct (HasSuffix b "/"); rewrite ?str_app_length; simpl; lia.
Qed.

Lemma translateWinPath_length_witness :
  String.length (translateWinPath "/vol" "c" "a\b") =
    String.length (withSlash "/vol") + String.length "c" + 1 + String.length "a\b"
  ∧ String.length "/vol" ≤ String.length (withSlash "/vol") ≤ String.length "/vol" + 1.
Proof. exact (translateWinPath_length "/vol" "c" "a\b" eq_refl). Defined.

End TranslatorFacts.

(** ** Which entries are rewritten *)

Section ScanFacts.

Lemma all_bytes_take_while p (s : string) : all_bytes p (take_while p s) = true.
Proof.
  induction s as [|c s IH]; [done|]. simpl.
  destruct (p c) eqn:E; [|done]. simpl. by rewrite E, IH.
Qed.

Lemma drop_while_head p (s : string) :
  drop_while p s = EmptyString ∨ ∃ c r, drop_while p s = String c r ∧ p c = false.
Proof.
  induction s as [|c s IH]; [by left|]. simpl.
  destruct (p c) eqn:E; [done|]. right. eauto.
Qed.

(** [SplitN(s, "=", 2)] by scanning for the first equals sign. *)
Lemma SplitN_scan (s : string) :
  SplitN s "=" 2 =
    match drop_while (λ c, negb (Ascii.eqb c "=")) s with
    | EmptyString => [s]
    | String _ v => [take_while (λ c, negb (Ascii.eqb c "=")) s; v]
    end.
Proof.
  induction s as [|c s IH]; [done|]. rewrite SplitN_cons. simpl.
  destruct (Ascii.eqb c "=") eqn:E; simpl.
  - by rewrite SplitN_one.
  - rewrite IH. by destruct (drop_while _ s).
Qed.

(** X4: [bindRegex] and the bind loop body amount to one scan: an element
    is rewritten when it starts with a letter, a colon, a slash or
    backslash and one more byte that is no colon; the sub-path runs to the
    next colon and what is appended runs from there to the next line feed. *)
Theorem bindEntry_by_scanning (b s : string) :
  bindEntry b s =
    match s with
    | String d (String c (String sep r)) =>
        if (is_letter d && Ascii.eqb c ":" && is_sep sep
            && negb (String.eqb (take_while not_colon r) EmptyString))%bool
        then Some (translateWinPath b (String d EmptyString) (take_while not_colon r)
                   +:+ take_while dot (drop_while not_colon r))
        else None
    | _ => None
    end.
Proof.
  rewrite bindEntry_closed. unfold bindMatch, pathPrefix.
  destruct s as [|d [|c [|sep r]]]; try done. unfold is_colon.
  destruct (is_letter d && Ascii.eqb c ":" && is_sep sep)%bool; [|done].
  simpl. by destruct (take_while not_colon r).
Qed.

(** X5: [envPathRegex], [SplitN] and the environment loop body amount to
    one scan: the key runs to the first equals sign, and the element is
    rewritten when what follows that sign starts with a letter, a colon
    and a slash or backslash; the translated sub-path runs to the next
    line feed. *)
Theorem envEntry_by_scanning (b s : string) :
  envEntry b s =
    match drop_while (λ c, negb (Ascii.eqb c "=")) s with
    | String _ (String d (String c (String sep r))) =>
        if (is_letter d && Ascii.eqb c ":" && is_sep sep)%bool
        then Some (take_while (λ c, negb (Ascii.eqb c "=")) s +:+ "="
                   +:+ translateWinPath b (String d EmptyString) (take_while dot r))
        else None
    | _ => None
    end.
Proof.
  rewrite envEntry_closed, SplitN_scan.
  destruct (drop_while _ s) as [|e v]; [done|].
  unfold envMatch, pathPrefix. destruct v as [|d [|c [|sep r]]]; try done.
  unfold is_colon. by destruct (is_letter d && Ascii.eqb c ":" && is_sep sep)%bool.
Qed.

(** X6: a bind of a whole drive is never rewritten: with nothing between
    the separator and the next colon (or the end) [bindRegex] does not
    match, whatever follows. *)
Theorem bindEntry_drive_root_untouched (b t : string) (d sep : ascii) :
  bindEntry b (String d (String ":" (String sep EmptyString))) = None
  ∧ bindEntry b (String d (String ":" (String sep (String ":" t)))) = None
  ∧ rewriteElem (bindEntry b) (JString (String d (String ":" (String sep (String ":" t)))))
    = JString (String d (String ":" (String sep (String ":" t)))).
Proof.
  assert (bindEntry b (String d (String ":" (String sep (String ":" t)))) = None) as H.
  { rewrite bindEntry_closed. unfold bindMatch, pathPrefix.
    by destruct (is_letter d && is_colon ":" && is_sep sep)%bool. }
  repeat split; [|done|by simpl; rewrite H].
  rewrite bindEntry_closed. unfold bindMatch, pathPrefix.
  by destruct (is_letter d && is_colon ":" && is_sep sep)%bool.
Qed.

(** X7: a rewritten environment entry has the key of the original, the
    empty key included, and its value starts with the base. *)
Theorem envEntry_keeps_key (b s s' : string) :
  envEntry b s = Some s' →
  ∃ k v v', no_equals k = true
    ∧ s = k +:+ "=" +:+ v
    ∧ s' = k +:+ "=" +:+ withSlash b +:+ v'
    ∧ SplitN s "=" 2 = [k; v]
    ∧ SplitN s' "=" 2 = [k; withSlash b +:+ v'].
Proof.
  rewrite envEntry_closed.
  destruct (SplitN s "=" 2) as [|k [|v [|]]] eqn:E; try done.
  destruct (envMatch v) as [m|]; [|done]. intros [= <-].
  apply SplitN_two in E as [Hk ->].
  exists k, v, (ToUpper (sub m 1) +:+ "/" +:+ ReplaceAll (sub m 2) "\" "/").
  rewrite translateWinPath_eq. repeat split; try done; by apply SplitN_first.
Qed.

Lemma envEntry_keeps_key_witness :
  ∃ k v v', no_equals k = true
    ∧ "=C:\x" = k +:+ "=" +:+ v
    ∧ "=/vol/C/x" = k +:+ "=" +:+ withSlash "/vol" +:+ v'
    ∧ SplitN "=C:\x" "=" 2 = [k; v]
    ∧ SplitN "=/vol/C/x" "=" 2 = [k; withSlash "/vol" +:+ v'].
Proof. apply (envEntry_keeps_key "/vol" "=C:\x" "=/vol/C/x"). by vm_compute. Defined.

End ScanFacts.

Section LineFeedFree.

Lemma all_bytes_drop_while p q (s : string) :
  all_bytes q s = true → all_bytes q (drop_while p s) = true.
Proof.
  induction s as [|c s IH]; [done|]. simpl. intros [Hc Hs]%andb_true_iff.
  destruct (p c); [auto|]. simpl. by rewrite Hc, Hs.
Qed.

(** X8: an element without a line feed loses nothing when it is rewritten:
    the bind is the drive, the separator, the sub-path and a suffix, and
    becomes the translated sub-path and that suffix; the environment entry
    is the key and a drive path, and becomes the key and the translated
    path. *)
Theorem rewriting_loses_nothing_without_line_feed (b s s' : string) :
  no_line_feed s = true →
  (bindEntry b s = Some s' →
   ∃ d sep p t, s = String d (String ":" (String sep (p +:+ t)))
                ∧ s' = translateWinPath b (String d EmptyString) p +:+ t)
  ∧ (envEntry b s = Some s' →
     ∃ k d sep p, s = k +:+ "=" +:+ String d (String ":" (String sep p))
                  ∧ s' = k +:+ "=" +:+ translateWinPath b (String d EmptyString) p).
Proof.
  intros Hs. split.
  - rewrite bindEntry_closed. unfold bindMatch, pathPrefix.
    destruct s as [|d [|c [|sep r]]]; try done.
    destruct (is_letter d && is_colon c && is_sep sep)%bool eqn:E; [|done].
    destruct (take_while not_colon r) eqn:Ep; [done|]. rewrite <- Ep.
    intros [= <-]. apply andb_true_iff in E as [E _]. apply andb_true_iff in E as [_ Hc].
    apply Ascii.eqb_eq in Hc as ->. cbn [sub nth].
    exists d, sep, (take_while not_colon r), (drop_while not_colon r).
    rewrite take_drop_while. split; [done|]. f_equal.
    apply take_while_all_true, all_bytes_drop_while.
    unfold no_line_feed in Hs. simpl in Hs. by repeat (apply andb_true_iff in Hs as [_ Hs]).
  - rewrite envEntry_closed.
    destruct (SplitN s "=" 2) as [|k [|v [|]]] eqn:E; try done.
    apply SplitN_two in E as [Hk ->].
    unfold envMatch, pathPrefix. destruct v as [|d [|c [|sep r]]]; try done.
    destruct (is_letter d && is_colon c && is_sep sep)%bool eqn:E; [|done].
    intros [= <-]. apply andb_true_iff in E as [E _]. apply andb_true_iff in E as [_ Hc].
    apply Ascii.eqb_eq in Hc as ->. exists k, d, sep, r. split; [done|].
    simpl. rewrite take_while_all_true; [done|].
    unfold no_line_feed in Hs. rewrite !all_bytes_app in Hs.
    apply andb_true_iff in Hs as [_ Hs]. apply andb_true_iff in Hs as [_ Hs].
    simpl in Hs. by repeat (apply andb_true_iff in Hs as [_ Hs]).
Qed.

Lemma rewriting_loses_nothing_without_line_feed_witness :
  ∃ d sep p t, "C:\data:/app:ro" = String d (String ":" (String sep (p +:+ t)))
               ∧ "/vol/C/data:/app:ro" = translateWinPath "/vol/" (String d EmptyString) p +:+ t.
Proof.
  apply (rewriting_loses_nothing_without_line_feed "/vol/" "C:\data:/app:ro"
           "/vol/C/data:/app:ro"); by vm_compute.
Defined.

End LineFeedFree.

(** ** The loops and the payload *)

Section PayloadFacts.

(** X9: each of the two loops that rewrite a slice in place acts on every
    element by itself: the slice keeps its length, element [i] of the
    result is element [i] of the input, rewritten if it is a string that
    the loop body accepts and kept otherwise, and [modified] ends true
    exactly when it started true or some element was rewritten. *)
Theorem rewrite_loop_pointwise (f : string → option string) (l : list value) (m : bool) :
  length (rangeRewrite f (length l) 0 l m).1 = length l
  ∧ (∀ i, (rangeRewrite f (length l) 0 l m).1 !! i = rewriteElem f <$> l !! i)
  ∧ (∀ i v, l !! i = Some v → hits f v = false →
       (rangeRewrite f (length l) 0 l m).1 !! i = Some v)
  ∧ (rangeRewrite f (length l) 0 l m).2 = (m || existsb (hits f) l)%bool.
Proof.
  rewrite rangeRewrite_spec. simpl. repeat split.
  - apply length_fmap.
  - intros i. apply list_lookup_fmap.
  - intros i v Hi Hv. rewrite list_lookup_fmap, Hi. simpl. by rewrite rewriteElem_hits.
Qed.

Lemma rewriteHostConfig_observed (b ip : string) (m : gmap string value) (f : bool) :
  bindsOf (rewriteHostConfig b ip m f).1.1 = rewriteElem (bindEntry b) <$> bindsOf m
  ∧ portBindingsOf (rewriteHostConfig b ip m f).1.1 = portBindingsOf m
  ∧ (∀ k, k ≠ "HostConfig" → (rewriteHostConfig b ip m f).1.1 !! k = m !! k)
  ∧ (rewriteHostConfig b ip m f).2 = (f || existsb (hits (bindEntry b)) (bindsOf m))%bool
  ∧ (∀ hc, m !! "HostConfig" = Some (JObject hc) →
       ∃ hc', (rewriteHostConfig b ip m f).1.1 !! "HostConfig" = Some (JObject hc')
              ∧ ∀ k, k ≠ "Binds" → hc' !! k = hc !! k)
  ∧ ((∀ hc, m !! "HostConfig" ≠ Some (JObject hc)) → (rewriteHostConfig b ip m f).1.1 = m).
Proof.
  unfold rewriteHostConfig, bindsOf, portBindingsOf.
  destruct (m !! "HostConfig") as [[| | | | |hc]|] eqn:Hhc;
    try (simpl; rewrite ?Hhc; repeat split; by rewrite ?orb_false_r).
  assert (∀ hc' : gmap string value, (∀ k, k ≠ "Binds" → hc' !! k = hc !! k) →
          match hc' !! "PortBindings" with
          | Some (JObject portBindings) => portBindings
          | _ => ∅
          end = match hc !! "PortBindings" with
                | Some (JObject portBindings) => portBindings
                | _ => ∅
                end) as Hpb.
  { intros hc' Hsame. by rewrite Hsame. }
  destruct (hc !! "Binds") as [[| | | |binds|]|] eqn:Hb; simpl.
  all: rewrite ?lookup_insert_eq, ?Hb.
  all: try (unfold rewriteBinds; rewrite rangeRewrite_spec; simpl;
            rewrite ?lookup_insert_eq).
  all: repeat split; rewrite ?orb_false_r; try done.
  all: try (intros k Hk; by rewrite lookup_insert_ne).
  all: try (intros Hno; by destruct (Hno hc)).
  all: try (intros ? [= <-]; eexists; split; [done|];
            intros k Hk; by rewrite ?lookup_insert_ne).
  all: try (apply Hpb; intros k Hk; by rewrite lookup_insert_ne).
Qed.

Lemma rewriteEnv_observed (b : string) (m : gmap string value) (f : bool) :
  envsOf (rewriteEnv b m f).1 = rewriteElem (envEntry b) <$> envsOf m
  ∧ (∀ k, k ≠ "Env" → (rewriteEnv b m f).1 !! k = m !! k)
  ∧ (rewriteEnv b m f).2 = (f || existsb (hits (envEntry b)) (envsOf m))%bool.
Proof.
  unfold rewriteEnv, envsOf.
  destruct (m !! "Env") as [[| | | |envs|]|] eqn:He;
    try (simpl; rewrite ?He; repeat split; by rewrite ?orb_false_r).
  unfold rewriteEnvs. rewrite rangeRewrite_spec. simpl. rewrite lookup_insert_eq.
  repeat split. intros k Hk. by rewrite lookup_insert_ne.
Qed.

End PayloadFacts.

Section PayloadTheorems.

Lemma rewritePayload_observed (b ip : string) (m : gmap string value) :
  bindsOf (rewritePayload b ip m).1.1 = rewriteElem (bindEntry b) <$> bindsOf m
  ∧ envsOf (rewritePayload b ip m).1.1 = rewriteElem (envEntry b) <$> envsOf m
  ∧ portBindingsOf (rewritePayload b ip m).1.1 = portBindingsOf m
  ∧ (rewritePayload b ip m).2 =
      (existsb (hits (bindEntry b)) (bindsOf m) || existsb (hits (envEntry b)) (envsOf m))%bool
  ∧ (rewritePayload b ip m).1.2 = (λ p, (p, ip)) <$> discoverPorts (portBindingsOf m).
Proof.
  unfold rewritePayload.
  pose proof (rewriteHostConfig_observed b ip m false) as (Hb & Hp & Hk & Hf & _).
  pose proof (rewriteHostConfig_forwarders b ip m false) as Hc.
  destruct (rewriteHostConfig b ip m false) as [[m1 calls] f1]. simpl in *.
  pose proof (rewriteEnv_observed b m1 f1) as (He & Hk' & Hf').
  destruct (rewriteEnv b m1 f1) as [m2 f2]. simpl in *.
  assert (m2 !! "HostConfig" = m1 !! "HostConfig") as Hhc by by apply Hk'.
  assert (m1 !! "Env" = m !! "Env") as Henv by by apply Hk.
  repeat split.
  - rewrite <- Hb. unfold bindsOf. by rewrite Hhc.
  - rewrite He. unfold envsOf. by rewrite Henv.
  - rewrite <- Hp. unfold portBindingsOf. by rewrite Hhc.
  - rewrite Hf', Hf. simpl. unfold envsOf. by rewrite Henv.
  - done.
Qed.

(** X10: what lines 115-163 do to a decoded payload, whatever its shape.
    The binds and the environment are rewritten element by element (a
    field that is absent or of another type counts as empty and does not
    stop the other field from being processed); the port bindings, every
    other key of the host configuration and every other top-level key are
    as before; and [modified] is true exactly when some element was
    rewritten. *)
Theorem rewritePayload_spec (b ip : string) (m : gmap string value) :
  bindsOf (rewritePayload b ip m).1.1 = rewriteElem (bindEntry b) <$> bindsOf m
  ∧ envsOf (rewritePayload b ip m).1.1 = rewriteElem (envEntry b) <$> envsOf m
  ∧ length (bindsOf (rewritePayload b ip m).1.1) = length (bindsOf m)
  ∧ length (envsOf (rewritePayload b ip m).1.1) = length (envsOf m)
  ∧ portBindingsOf (rewritePayload b ip m).1.1 = portBindingsOf m
  ∧ (∀ k, k ≠ "HostConfig" → k ≠ "Env" → (rewritePayload b ip m).1.1 !! k = m !! k)
  ∧ (∀ hc, m !! "HostConfig" = Some (JObject hc) →
       ∃ hc', (rewritePayload b ip m).1.1 !! "HostConfig" = Some (JObject hc')
              ∧ ∀ k, k ≠ "Binds" → hc' !! k = hc !! k)
  ∧ (rewritePayload b ip m).2 =
      (existsb (hits (bindEntry b)) (bindsOf m) || existsb (hits (envEntry b)) (envsOf m))%bool.
Proof.
  destruct (rewritePayload_observed b ip m) as (Hb & He & Hp & Hf & _).
  rewrite Hb, He, !length_fmap. do 5 (split; [done|]). split; [|split; [|done]].
  - intros k Hk1 Hk2. unfold rewritePayload.
    pose proof (rewriteHostConfig_observed b ip m false) as (_ & _ & Hk & _).
    destruct (rewriteHostConfig b ip m false) as [[m1 calls] f1]. simpl in *.
    pose proof (rewriteEnv_observed b m1 f1) as (_ & Hk' & _).
    destruct (rewriteEnv b m1 f1) as [m2 f2]. simpl in *. by rewrite Hk', Hk.
  - intros hc Hhc. unfold rewritePayload.
    pose proof (rewriteHostConfig_observed b ip m false) as (_ & _ & _ & _ & Hin & _).
    destruct (rewriteHostConfig b ip m false) as [[m1 calls] f1]. simpl in *.
    pose proof (rewriteEnv_observed b m1 f1) as (_ & Hk' & _).
    destruct (rewriteEnv b m1 f1) as [m2 f2]. simpl in *.
    destruct (Hin hc Hhc) as (hc' & Hhc' & Hsame). exists hc'. by rewrite Hk'.
Qed.

Variable Unmarshal : string → unmarshalled.
Variable Marshal : gmap string value → string.

Lemma modifyAndExtract_decoded (req : Request) (bodyBytes b ip : string)
    (m : gmap string value) :
  Body req = Reader bodyBytes →
  Unmarshal bodyBytes = UnmarshalObject m →
  modifyAndExtract Unmarshal Marshal req b ip =
    let finalBytes :=
      if (rewritePayload b ip m).2 then Marshal (rewritePayload b ip m).1.1 else bodyBytes in
    {| request := {| Body := Reader finalBytes;
                     ContentLength := Z.of_nat (String.length finalBytes) |};
       forwarders := (rewritePayload b ip m).1.2;
       modified := (rewritePayload b ip m).2 |}.
Proof.
  intros Hbody Hdec. unfold modifyAndExtract, rewritePayload. rewrite Hbody, Hdec. simpl.
  destruct (rewriteHostConfig b ip m false) as [[m1 calls] f1].
  by destruct (rewriteEnv b m1 f1) as [m2 f2].
Qed.

(** X11: for a body that decodes to an object, the body that leaves the
    hook is the encoding of the rewritten payload when some bind or
    environment element was rewritten, and the bytes that came in
    otherwise; [modified] says which, and the content length is the length
    of what leaves. *)
Theorem modifyAndExtract_body (req : Request) (bodyBytes b ip : string)
    (m : gmap string value) :
  Body req = Reader bodyBytes →
  Unmarshal bodyBytes = UnmarshalObject m →
  modified (modifyAndExtract Unmarshal Marshal req b ip) =
    (existsb (hits (bindEntry b)) (bindsOf m) || existsb (hits (envEntry b)) (envsOf m))%bool
  ∧ Body (request (modifyAndExtract Unmarshal Marshal req b ip)) =
      Reader (if modified (modifyAndExtract Unmarshal Marshal req b ip)
              then Marshal (rewritePayload b ip m).1.1 else bodyBytes)
  ∧ ContentLength (request (modifyAndExtract Unmarshal Marshal req b ip)) =
      Z.of_nat (String.length
        (if modified (modifyAndExtract Unmarshal Marshal req b ip)
         then Marshal (rewritePayload b ip m).1.1 else bodyBytes)).
Proof.
  intros Hbody Hdec. rewrite (modifyAndExtract_decoded _ _ _ _ _ Hbody Hdec). simpl.
  by destruct (rewritePayload_observed b ip m) as (_ & _ & _ & -> & _).
Qed.

(** X12: the forwarders do not depend on the rewriting: for every body
    that decodes to an object, rewritten or not, [startForwarder] is
    started once for each binding descriptor that carries a host port, and
    always with the target address given to the hook. *)
Theorem modifyAndExtract_forwarders (req : Request) (bodyBytes b ip : string)
    (m : gmap string value) :
  Body req = Reader bodyBytes →
  Unmarshal bodyBytes = UnmarshalObject m →
  forwarders (modifyAndExtract Unmarshal Marshal req b ip) =
    (λ p, (p, ip)) <$> discoverPorts (portBindingsOf m)
  ∧ (∀ p, started p (forwarders (modifyAndExtract Unmarshal Marshal req b ip)) =
          occurrences p m)
  ∧ ∀ c, c ∈ forwarders (modifyAndExtract Unmarshal Marshal req b ip) → c.2 = ip.
Proof.
  intros Hbody Hdec. rewrite (modifyAndExtract_decoded _ _ _ _ _ Hbody Hdec). simpl.
  destruct (rewritePayload_observed b ip m) as (_ & _ & _ & _ & ->).
  repeat split.
  - intros p. by rewrite started_fmap, discoverPorts_occurrences.
  - intros c [p [-> _]]%list_elem_of_fmap. done.
Qed.

(** X13: the request that leaves the hook is either the one that came in
    (no body, a body that cannot be read, or one that does not decode; no
    forwarder is started and [modified] is false), or it has a body whose
    length is its content length. *)
Theorem modifyAndExtract_framing (req : Request) (b ip : string) :
  (request (modifyAndExtract Unmarshal Marshal req b ip) = req
   ∧ forwarders (modifyAndExtract Unmarshal Marshal req b ip) = []
   ∧ modified (modifyAndExtract Unmarshal Marshal req b ip) = false)
  ∨ ∃ finalBytes,
      Body (request (modifyAndExtract Unmarshal Marshal req b ip)) = Reader finalBytes
      ∧ ContentLength (request (modifyAndExtract Unmarshal Marshal req b ip)) =
          Z.of_nat (String.length finalBytes).
Proof.
  unfold modifyAndExtract. destruct req as [[| |bodyBytes] len]; simpl;
    try (left; by repeat split).
  destruct (Unmarshal bodyBytes) as [| |m]; [left; by repeat split| |].
  - right. simpl. eauto.
  - right. simpl. destruct (rewriteHostConfig b ip m false) as [[m1 calls] f1].
    destruct (rewriteEnv b m1 f1) as [m2 f2]. simpl. eauto.
Qed.

End PayloadTheorems.

Lemma modifyAndExtract_body_witness :
  modified (modifyAndExtract SampleJSON.Unmarshal (λ _, "encoded")
              {| Body := Reader sampleBindLineFeed; ContentLength := 0 |} "/vol/" "10.0.0.2")
    = true
  ∧ Body (request (modifyAndExtract SampleJSON.Unmarshal (λ _, "encoded")
              {| Body := Reader sampleBindLineFeed; ContentLength := 0 |} "/vol/" "10.0.0.2"))
    = Reader "encoded".
Proof.
  destruct (modifyAndExtract_body SampleJSON.Unmarshal (λ _, "encoded")
              {| Body := Reader sampleBindLineFeed; ContentLength := 0 |}
              sampleBindLineFeed "/vol/" "10.0.0.2"
              (mapOf (SampleJSON.Unmarshal sampleBindLineFeed)))
    as (Hm & Hb & _).
  - reflexivity.
  - vm_compute. reflexivity.
  - split; [by rewrite Hm|]. rewrite Hb, Hm. by vm_compute.
Defined.

Lemma modifyAndExtract_forwarders_witness :
  started "54322" (forwarders (modifyAndExtract SampleJSON.Unmarshal (λ _, "encoded")
              {| Body := Reader samplePorts; ContentLength := 0 |} "/vol/" "10.0.0.2")) = 2.
Proof.
  destruct (modifyAndExtract_forwarders SampleJSON.Unmarshal (λ _, "encoded")
              {| Body := Reader samplePorts; ContentLength := 0 |}
              samplePorts "/vol/" "10.0.0.2"
              (mapOf (SampleJSON.Unmarshal samplePorts)))
    as (_ & Hn & _).
  - reflexivity.
  - vm_compute. reflexivity.
  - rewrite Hn. by vm_compute.
Defined.

Section SecondPass.

Variable b : string.
Hypothesis Hbase : pathPrefix (withSlash b) = None.

Lemma translateWinPath_no_prefix (dr pa r : string) :
  pathPrefix (translateWinPath b dr pa +:+ r) = None.
Proof.
  rewrite translateWinPath_eq, !str_app_assoc.
  apply pathPrefix_base; [apply withSlash_suffix | done].
Qed.

Lemma bindEntry_twice (s s' : string) : bindEntry b s = Some s' → bindEntry b s' = None.
Proof.
  rewrite !bindEntry_closed. destruct (bindMatch s) as [m|]; [|done]. intros [= <-].
  unfold bindMatch. by rewrite translateWinPath_no_prefix.
Qed.

Lemma envEntry_twice (s s' : string) : envEntry b s = Some s' → envEntry b s' = None.
Proof.
  rewrite !envEntry_closed.
  destruct (SplitN s "=" 2) as [|k [|v [|]]] eqn:E; try done.
  destruct (envMatch v) as [m|]; [|done]. intros [= <-].
  apply SplitN_two in E as [Hk _]. rewrite (SplitN_first _ _ Hk).
  unfold envMatch. rewrite <- (str_app_empty_r (translateWinPath _ _ _)).
  by rewrite translateWinPath_no_prefix.
Qed.

Lemma rewritten_not_hit (f : string → option string) (l : list value) :
  (∀ s s', f s = Some s' → f s' = None) →
  existsb (hits f) (rewriteElem f <$> l) = false.
Proof.
  intros Htwice. induction l as [|v l IH]; [done|]. cbn [fmap list_fmap existsb].
  rewrite IH, orb_false_r. destruct v as [| | |s| |]; try done. simpl.
  destruct (f s) as [s'|] eqn:E; simpl.
  - rewrite (Htwice _ _ E). by apply bool_decide_eq_false; intros [? ?].
  - rewrite E. by apply bool_decide_eq_false; intros [? ?].
Qed.

(** X14: with a base that does not itself start like a drive path, a
    second pass over a rewritten payload changes nothing: the tree stays,
    [modified] is false, and the same forwarders are started again (it is
    the registry that keeps them from listening twice). *)
Theorem rewritePayload_second_pass (ip : string) (m : gmap string value) :
  rewritePayload b ip (rewritePayload b ip m).1.1 =
    ((rewritePayload b ip m).1.1, (rewritePayload b ip m).1.2, false).
Proof.
  destruct (rewritePayload_observed b ip m) as (Hb & He & Hp & _ & Hc).
  set (m' := (rewritePayload b ip m).1.1) in *.
  assert (∀ f (l : list value), existsb (hits f) l = false → ∀ v, v ∈ l → hits f v = false)
    as Hall.
  { intros f l Hl v Hv. apply not_true_is_false. intros Hhit.
    assert (existsb (hits f) l = true); [|congruence].
    apply existsb_exists. exists v. by rewrite <- list_elem_of_In. }
  assert (∀ v, v ∈ bindsOf m' → hits (bindEntry b) v = false) as Hnb.
  { apply Hall. rewrite Hb. apply rewritten_not_hit, bindEntry_twice. }
  assert (∀ v, v ∈ envsOf m' → hits (envEntry b) v = false) as Hne.
  { apply Hall. rewrite He. apply rewritten_not_hit, envEntry_twice. }
  unfold rewritePayload at 1.
  pose proof (rewriteHostConfig_forwarders b ip m' false) as Hf.
  destruct (rewriteHostConfig_no_hit b ip m' false Hnb) as [Hm Hflag].
  destruct (rewriteHostConfig b ip m' false) as [[m1 calls] f1]. simpl in *. subst.
  rewrite rewriteEnv_no_hit by done. by rewrite Hp, Hc.
Qed.

End SecondPass.

Lemma rewritePayload_second_pass_witness :
  bindsOf (rewritePayload "/vol/" "10.0.0.2"
             (mapOf (SampleJSON.Unmarshal sampleBindLineFeed))).1.1
    = [JString "/vol/C/data:/app"]
  ∧ (rewritePayload "/vol/" "10.0.0.2"
       (rewritePayload "/vol/" "10.0.0.2"
          (mapOf (SampleJSON.Unmarshal sampleBindLineFeed))).1.1).2 = false.
Proof.
  split; [by vm_compute|].
  by rewrite (rewritePayload_second_pass "/vol/" eq_refl "10.0.0.2").
Defined.

(** ** The request hook *)

Section DirectorFacts.

Lemma HasPrefix_app (s r : string) : HasPrefix (s +:+ r) s = true.
Proof.
  induction s as [|c s IH]; [by destruct r|]. rewrite str_app_cons. simpl.
  by rewrite Ascii.eqb_refl, IH.
Qed.

Lemma HasPrefix_inv (s prefix : string) :
  HasPrefix s prefix = true → ∃ r, s = prefix +:+ r.
Proof.
  revert s. induction prefix as [|a prefix IH]; intros s H.
  - by exists s.
  - destruct s as [|c s]; [done|]. simpl in H.
    apply andb_true_iff in H as [Ha H]. apply Ascii.eqb_eq in Ha as ->.
    destruct (IH _ H) as [r ->]. by exists r.
Qed.

Lemma Contains_cons c (s substr : string) :
  Contains (String c s) substr =
    if HasPrefix (String c s) substr then true else Contains s substr.
Proof. reflexivity. Qed.

Lemma Contains_HasPrefix (s substr : string) :
  HasPrefix s substr = true → Contains s substr = true.
Proof.
  intros H. destruct s as [|c s]; [by destruct substr|]. by rewrite Contains_cons, H.
Qed.

(** [strings.Contains]: the text occurs somewhere. *)
Lemma Contains_iff (s substr : string) :
  Contains s substr = true ↔ ∃ pre post, s = pre +:+ substr +:+ post.
Proof.
  split.
  - induction s as [|c s IH].
    + destruct substr; [|done]. intros _. by exists EmptyString, EmptyString.
    + rewrite Contains_cons. destruct (HasPrefix (String c s) substr) eqn:E.
      * intros _. apply HasPrefix_inv in E as [r E]. by exists EmptyString, r.
      * intros (pre & post & ->)%IH. by exists (String c pre), post.
  - intros (pre & post & ->). induction pre as [|c pre IH].
    + rewrite str_app_empty_l. apply Contains_HasPrefix, HasPrefix_app.
    + rewrite str_app_cons, Contains_cons, IH. by case_match.
Qed.

Variable Unmarshal : string → unmarshalled.
Variable Marshal : gmap string value → string.

(** X15: the hook always points the request at the remote daemon (scheme
    http, URL host and Host header both [ip:vm-port]) and leaves method and
    path alone.  It hands the request to [modifyAndExtract], with the base
    and the address of the flags, exactly when the method is POST and
    [/containers/create] occurs somewhere in the path, which covers the
    paths with an API version in front; every other request keeps its body
    and content length and starts no forwarder. *)
Theorem Director_spec (flags : Flags) (req : HTTPRequest) :
  Method (Director Unmarshal Marshal flags req).1 = Method req
  ∧ Path (ReqURL (Director Unmarshal Marshal flags req).1) = Path (ReqURL req)
  ∧ Scheme (ReqURL (Director Unmarshal Marshal flags req).1) = "http"
  ∧ URLHost (ReqURL (Director Unmarshal Marshal flags req).1) = flagIP flags +:+ ":" +:+ flagVMPort flags
  ∧ Host (Director Unmarshal Marshal flags req).1 = flagIP flags +:+ ":" +:+ flagVMPort flags
  ∧ ((Method req = "POST"
      ∧ ∃ pre post, Path (ReqURL req) = pre +:+ "/containers/create" +:+ post) →
     Payload (Director Unmarshal Marshal flags req).1 =
       request (modifyAndExtract Unmarshal Marshal (Payload req) (flagBase flags) (flagIP flags))
     ∧ (Director Unmarshal Marshal flags req).2 =
       forwarders (modifyAndExtract Unmarshal Marshal (Payload req) (flagBase flags) (flagIP flags)))
  ∧ (¬ (Method req = "POST"
        ∧ ∃ pre post, Path (ReqURL req) = pre +:+ "/containers/create" +:+ post) →
     Payload (Director Unmarshal Marshal flags req).1 = Payload req
     ∧ (Director Unmarshal Marshal flags req).2 = []).
Proof.
  unfold Director, MethodPost.
  destruct (String.eqb_spec (Method req) "POST") as [Hm|Hm];
    destruct (Contains (Path (ReqURL req)) "/containers/create") eqn:Hc; simpl.
  all: do 5 (split; [done|]); split.
  all: try (intros [Hpost Hp]; apply Contains_iff in Hp; first [done | congruence]).
  all: intros Hno; first [by split | destruct Hno; split; [done | by apply Contains_iff]].
Qed.

End DirectorFacts.

(** ** Whole calls and the registry *)

Section CallsFacts.
Import Forwarder ForwarderFacts Calls.

Lemma exec_sched mx fw gs i bindOk g :
  gs !! i = Some g →
  exec (State mx fw gs) (Sched i bindOk) =
    match at_ g with
    | AtLock =>
        if mx then None else Some (State true fw (<[i := Goroutine (port g) AtTest]> gs))
    | AtTest =>
        if default false (fw !! port g)
        then Some (State mx fw (<[i := Goroutine (port g) AtUnlockReturn]> gs))
        else Some (State mx fw (<[i := Goroutine (port g) AtSet]> gs))
    | AtUnlockReturn => Some (State false fw (<[i := Goroutine (port g) (Returned NoOp)]> gs))
    | AtSet => Some (State mx (<[port g := true]> fw) (<[i := Goroutine (port g) AtUnlock]> gs))
    | AtUnlock => Some (State false fw (<[i := Goroutine (port g) AtListen]> gs))
    | AtListen =>
        Some (State mx fw
                (<[i := Goroutine (port g) (if bindOk then Accepting else Returned BindFailed)]> gs))
    | Accepting => Some (State mx fw gs)
    | Returned _ => None
    end.
Proof. intros H. unfold exec. cbn [goroutines]. rewrite H. by destruct (at_ g). Qed.

(** One statement of [runCall] on a goroutine at a known place. *)
Lemma runCall_at (fuel : nat) mx fw gs i p a bindOk :
  gs !! i = Some (Goroutine p a) →
  runCall (S fuel) (State mx fw gs) i bindOk =
    if finished a then Some (State mx fw gs)
    else match exec (State mx fw gs) (Sched i bindOk) with
         | Some σ' => runCall fuel σ' i bindOk
         | None => None
         end.
Proof. intros H. simpl. by rewrite H. Qed.

Ltac call_step Hins p a :=
  rewrite (runCall_at _ _ _ _ _ p a) by (by apply Hins);
  cbn [finished];
  try (rewrite (exec_sched _ _ _ _ _ (Goroutine p a)) by (by apply Hins);
       cbn [at_ port];
       try match goal with H : default false _ = _ |- _ => rewrite H end;
       rewrite ?list_insert_insert_eq).

Lemma runCall_from_lock (σ : state) i p bindOk :
  forwardMutex σ = false →
  goroutines σ !! i = Some (Goroutine p AtLock) →
  runCall 5 σ i bindOk =
    Some (if active σ p
          then State false (activeForwards σ)
                 (<[i := Goroutine p (Returned NoOp)]> (goroutines σ))
          else State false (<[p := true]> (activeForwards σ))
                 (<[i := Goroutine p (if bindOk then Accepting else Returned BindFailed)]>
                    (goroutines σ))).
Proof.
  destruct σ as [mx fw gs]. cbn [forwardMutex activeForwards goroutines]. intros -> Hi.
  assert (i < length gs) as Hlt by by eapply lookup_lt_Some.
  assert (∀ a (l : list goroutine), length l = length gs → <[i := a]> l !! i = Some a) as Hins'.
  { intros. apply list_lookup_insert_eq. lia. }
  assert (∀ a, <[i := a]> gs !! i = Some a) as Hins by (intros; by apply Hins').
  rewrite (runCall_at _ _ _ _ _ _ _ _ Hi). cbn [finished].
  unfold active. cbn [activeForwards].
  destruct (default false (fw !! p)) eqn:Hact;
    rewrite (exec_sched _ _ _ _ _ _ Hi); cbn [at_ port]; call_step Hins p AtTest.
  - call_step Hins p AtUnlockReturn. call_step Hins p (Returned NoOp). done.
  - call_step Hins p AtSet. call_step Hins p AtUnlock. call_step Hins p AtListen.
    done.
Qed.

Lemma insert_at_end (gs : list goroutine) x y : <[length gs := y]> (gs ++ [x]) = gs ++ [y].
Proof. induction gs as [|g gs IH]; [done|]. simpl. by rewrite IH. Qed.

Lemma call_spec (σ : state) p bindOk :
  forwardMutex σ = false →
  call σ p bindOk =
    Some (State false
            (if active σ p then activeForwards σ else <[p := true]> (activeForwards σ))
            (goroutines σ ++
               [Goroutine p (if active σ p then Returned NoOp
                             else if bindOk then Accepting else Returned BindFailed)])).
Proof.
  intros Hm. unfold call. cbn [exec].
  rewrite (runCall_from_lock _ _ p); cbn [forwardMutex goroutines activeForwards]; [|done|].
  - replace (active (State (forwardMutex σ) (activeForwards σ) _) p) with (active σ p) by done.
    destruct (active σ p); by rewrite insert_at_end.
  - by apply list_lookup_middle.
Qed.

Lemma runCall_steps (fuel : nat) (σ σ' : state) i bindOk :
  runCall fuel σ i bindOk = Some σ' → rtc step σ σ'.
Proof.
  revert σ. induction fuel as [|fuel IH]; intros σ H; cbn [runCall] in H; [simplify_eq; apply rtc_refl|].
  destruct (goroutines σ !! i) as [g|]; [|done].
  destruct (finished (at_ g)); [simplify_eq; apply rtc_refl|].
  destruct (exec σ (Sched i bindOk)) as [σ1|] eqn:E; [|done].
  eapply rtc_l; [by eexists|]. by apply IH.
Qed.

Lemma call_steps (σ σ' : state) p bindOk : call σ p bindOk = Some σ' → rtc step σ σ'.
Proof.
  unfold call. destruct (exec σ (Go p)) as [σ1|] eqn:E; [|done]. intros H.
  eapply rtc_l; [by eexists|]. by eapply runCall_steps.
Qed.

Lemma countFor_call (P : goroutine → bool) (q : string) mx fw (gs : list goroutine) g :
  countFor P q (State mx fw (gs ++ [g])) =
    countFor P q (State mx fw gs) + Nat.b2n (for_port q g && P g).
Proof. unfold countFor. cbn [goroutines]. by rewrite count_app_one. Qed.

Lemma serve_observed (σ : state) (ps : list string) (bindOk : bool) :
  forwardMutex σ = false →
  ∃ σ', serve σ ps bindOk = Some σ'
    ∧ rtc step σ σ'
    ∧ forwardMutex σ' = false
    ∧ ∀ q, active σ' q = (active σ q || bool_decide (q ∈ ps))%bool
           ∧ invocations q σ' = invocations q σ + length (filter (λ x, x = q) ps)
           ∧ listenCalls q σ' = listenCalls q σ + fresh_in σ ps q
           ∧ listeners q σ' = listeners q σ + (if bindOk then fresh_in σ ps q else 0).
Proof.
  revert σ. induction ps as [|p ps IH]; intros σ Hm.
  - exists σ. repeat split; try done; unfold fresh_in.
    + rewrite bool_decide_false by apply not_elem_of_nil. by rewrite orb_false_r.
    + rewrite bool_decide_false by apply not_elem_of_nil. destruct (active σ q); lia.
    + rewrite bool_decide_false by apply not_elem_of_nil.
      destruct bindOk, (active σ q); lia.
  - destruct σ as [mx fw gs]. cbn [forwardMutex] in Hm. subst mx.
    pose proof (call_spec (State false fw gs) p bindOk eq_refl) as Hcall.
    pose proof (call_steps _ _ _ _ Hcall) as Hsteps.
    assert (∀ q, bool_decide (q ∈ p :: ps) = (bool_decide (p = q) || bool_decide (q ∈ ps))%bool)
      as Hin.
    { intros q. apply eq_true_iff_eq.
      rewrite orb_true_iff, !bool_decide_eq_true, elem_of_cons. split; intros [?|?]; auto. }
    unfold active in Hcall, Hsteps. cbn [activeForwards goroutines] in Hcall, Hsteps.
    destruct (default false (fw !! p)) eqn:Hp;
      match type of Hcall with _ = Some ?s =>
        destruct (IH s eq_refl) as (σ' & Hserve & Hsteps' & Hm' & Hq) end;
      (exists σ'; split; [cbn [serve]; by rewrite Hcall|];
       split; [eapply rtc_trans; [exact Hsteps|exact Hsteps']|]; split; [done|]; intros q;
       destruct (Hq q) as (Ha & Hi & Hl & Hs); rewrite Ha, Hi, Hl, Hs; clear Ha Hi Hl Hs Hq;
       unfold invocations, listenCalls, listeners, fresh_in, active;
       cbn [activeForwards]; rewrite !countFor_call, Hin, filter_cons;
       unfold for_port; cbn [port at_ called_listen listening andb];
       destruct (decide (p = q)) as [->|Hne];
       [rewrite !(bool_decide_true (q = q)) by done; rewrite ?lookup_insert_eq, ?Hp
       |rewrite !(bool_decide_false (p = q)) by done; rewrite ?lookup_insert_ne by done];
       cbn [orb andb default Nat.b2n];
       destruct (default false (fw !! q)), (bool_decide (q ∈ ps)), bindOk;
       unfold countFor; simpl; repeat split; lia).
Qed.


Lemma registry_inv_init : registry_inv init.
Proof.
  split.
  - intros p v H. cbn [init activeForwards] in H. by rewrite lookup_empty in H.
  - intros p H. unfold active in H. cbn [init activeForwards] in H.
    by rewrite lookup_empty in H.
Qed.

Lemma registry_inv_step (σ σ' : state) : registry_inv σ → step σ σ' → registry_inv σ'.
Proof.
  intros [Hv Hp] [a Hex]. destruct a as [q|i bindOk]; simpl in Hex.
  - simplify_eq. split; [done|]. intros p Hact. specialize (Hp p Hact).
    unfold countFor in *. cbn [goroutines]. rewrite count_app_one. lia.
  - destruct (goroutines σ !! i) as [[q a]|] eqn:Hg; [|done]. simpl in Hex.
    destruct a; simpl in Hex; repeat case_match; simplify_eq; try done; try (by split).
    all: unfold move; split; cbn [activeForwards goroutines].
    all: try exact Hv.
    all: try (intros p v; rewrite lookup_insert; case_decide; [by intros [= <-]|by apply Hv]).
    all: intros p Hact; unfold active, countFor in *; cbn [activeForwards goroutines] in *.
    all: match goal with
         | |- context [<[_ := ?g']> (goroutines _)] =>
             pose proof (count_insert (λ g, for_port p g && has_set g)%bool _ _ _ g' Hg) as Hc
         end; unfold for_port in Hc; simpl in Hc.
    all: try (rewrite lookup_insert in Hact; case_decide; subst;
              [rewrite bool_decide_true in Hc by done|]).
    all: try (specialize (Hp p Hact)).
    all: rewrite ?andb_false_r, ?andb_true_r in Hc; unfold for_port in *; simpl in *; lia.
Qed.

Lemma registry_inv_reachable (σ : state) : reachable σ → registry_inv σ.
Proof.
  intros H. eapply (rtc_ind_r (λ s, registry_inv s) init);
    [apply registry_inv_init| |exact H].
  intros y z _ Hs Hy. by eapply registry_inv_step.
Qed.

Lemma count_exists (P : goroutine → bool) (gs : list goroutine) :
  1 ≤ count P gs → ∃ i g, gs !! i = Some g ∧ P g = true.
Proof.
  unfold count. induction gs as [|x gs IH]; simpl; [lia|]. intros H.
  destruct (P x) eqn:E.
  - by exists 0, x.
  - destruct IH as (i & g & Hi & Hg); [simpl in H; lia|]. by exists (S i), g.
Qed.

Lemma mutex_holder (σ : state) :
  reachable σ → forwardMutex σ = true →
  ∃ i g, goroutines σ !! i = Some g ∧ holds_mutex g = true.
Proof.
  intros [Hmx _]%inv_reachable Hm. apply count_exists. rewrite Hmx, Hm. simpl. lia.
Qed.

(** X16: the mutex excludes: in every reachable state it is locked exactly
    when some invocation is between [Lock] and [Unlock], and no two
    invocations are there at once. *)
Theorem mutex_excludes (σ : state) :
  reachable σ →
  (forwardMutex σ = true ↔ ∃ i g, goroutines σ !! i = Some g ∧ holds_mutex g = true)
  ∧ ∀ i j g g', goroutines σ !! i = Some g → goroutines σ !! j = Some g' →
      holds_mutex g = true → holds_mutex g' = true → i = j.
Proof.
  intros Hreach. destruct (inv_reachable σ Hreach) as [Hmx _]. split; [split|].
  - by apply mutex_holder.
  - intros (i & g & Hi & Hg). pose proof (count_pos _ _ _ _ Hi Hg) as Hpos.
    rewrite Hmx in Hpos. destruct (forwardMutex σ); [done|simpl in Hpos; lia].
  - intros i j g g' Hi Hj Hg Hg'. destruct (decide (i = j)) as [|Hne]; [done|].
    pose proof (count_two _ _ _ _ _ _ Hne Hi Hj Hg Hg') as Htwo.
    rewrite Hmx in Htwo. destruct (forwardMutex σ); simpl in Htwo; lia.
Qed.

Lemma mutex_excludes_witness :
  forwardMutex heldState = true
  ∧ ∃ i g, goroutines heldState !! i = Some g ∧ holds_mutex g = true.
Proof.
  assert (reachable heldState) as Hreach.
  { apply (execs_steps [Go "54322"; Sched 0 true]). vm_compute. reflexivity. }
  destruct (mutex_excludes heldState Hreach) as [[Hheld _] _].
  split; [reflexivity|]. apply Hheld. reflexivity.
Defined.

(** X17: the map records exactly the ports whose winner has executed the
    assignment of line 186: in every reachable state a port is present if
    and only if an invocation for it is past that line, so only ports that
    were asked for are ever present, and no entry is ever false. *)
Theorem registry_reflects_winners (σ : state) (p : string) :
  reachable σ →
  (∀ v, activeForwards σ !! p = Some v → v = true)
  ∧ (active σ p = true ↔ 1 ≤ countFor has_set p σ)
  ∧ (active σ p = true → 1 ≤ invocations p σ).
Proof.
  intros Hreach. destruct (registry_inv_reachable σ Hreach) as [Hv Hp].
  destruct (inv_reachable σ Hreach) as [_ Hinv]. destruct (Hinv p) as (_ & Hset & _).
  split; [apply Hv|]. split; [split|].
  - apply Hp.
  - intros Hone. destruct (active σ p); [done|]. specialize (Hset eq_refl). lia.
  - intros Hact. specialize (Hp p Hact).
    assert (countFor has_set p σ ≤ invocations p σ); [|lia].
    apply count_le. intros g. by destruct (for_port p g).
Qed.

Lemma registry_reflects_winners_witness :
  active laterState "8000" = true ∧ 1 ≤ countFor has_set "8000" laterState.
Proof.
  assert (reachable laterState) as Hreach.
  { eapply rtc_trans; [apply (execs_steps failedRun)|apply (execs_steps laterRun)];
      vm_compute; reflexivity. }
  destruct (registry_reflects_winners laterState "8000" Hreach) as (_ & [Hwon _] & _).
  split; [reflexivity|]. apply Hwon. reflexivity.
Defined.

(** X18: the mutex is never held for good: from every reachable state in
    which it is locked, its holder alone, in at most three statements,
    reaches a state in which it is free.  Both paths through the critical
    section end in [Unlock]. *)
Theorem mutex_always_released (σ : state) :
  reachable σ → forwardMutex σ = true →
  ∃ i n σ', n ≤ 3 ∧ execs σ (replicate n (Sched i true)) = Some σ' ∧ forwardMutex σ' = false.
Proof.
  intros Hreach Hm.
  destruct (mutex_holder σ Hreach Hm) as (i & [p a] & Hi & Ha). exists i.
  destruct σ as [mx fw gs]. cbn [forwardMutex goroutines] in *. subst mx.
  assert (i < length gs) as Hlt by by eapply lookup_lt_Some.
  assert (∀ a, <[i := a]> gs !! i = Some a) as Hins
    by (intros; by apply list_lookup_insert_eq).
  assert (∀ a b, <[i := a]> (<[i := b]> gs) !! i = Some a) as Hins2.
  { intros. apply list_lookup_insert_eq. by rewrite length_insert. }
  destruct a; try done.
  - destruct (default false (fw !! p)) eqn:Hp.
    + exists 2. eexists. split; [lia|]. cbn [replicate execs].
      rewrite (exec_sched _ _ _ _ _ _ Hi). cbn [at_ port]. rewrite Hp. cbn [execs].
      rewrite (exec_sched _ _ _ _ _ (Goroutine p AtUnlockReturn)) by apply Hins.
      cbn [at_ port execs]. done.
    + exists 3. eexists. split; [lia|]. cbn [replicate execs].
      rewrite (exec_sched _ _ _ _ _ _ Hi). cbn [at_ port]. rewrite Hp. cbn [execs].
      rewrite (exec_sched _ _ _ _ _ (Goroutine p AtSet)) by apply Hins.
      cbn [at_ port execs].
      rewrite (exec_sched _ _ _ _ _ (Goroutine p AtUnlock)) by apply Hins2.
      cbn [at_ port execs]. done.
  - exists 1. eexists. split; [lia|]. cbn [replicate execs].
    rewrite (exec_sched _ _ _ _ _ _ Hi). cbn [at_ port execs]. done.
  - exists 2. eexists. split; [lia|]. cbn [replicate execs].
    rewrite (exec_sched _ _ _ _ _ _ Hi). cbn [at_ port execs].
    rewrite (exec_sched _ _ _ _ _ (Goroutine p AtUnlock)) by apply Hins.
    cbn [at_ port execs]. done.
  - exists 1. eexists. split; [lia|]. cbn [replicate execs].
    rewrite (exec_sched _ _ _ _ _ _ Hi). cbn [at_ port execs]. done.
Qed.

Lemma mutex_always_released_witness :
  ∃ i n σ', n ≤ 3 ∧ execs heldState (replicate n (Sched i true)) = Some σ'
            ∧ forwardMutex σ' = false.
Proof.
  apply mutex_always_released; [|reflexivity].
  apply (execs_steps [Go "54322"; Sched 0 true]). vm_compute. reflexivity.
Defined.

(** X19: a call of [startForwarder] that nothing interleaves with, started
    with the mutex free, returns with the mutex free and the port in the
    map.  If the port was in the map it changes nothing and returns at line
    184; otherwise it adds the port and ends in the accept loop, or at line
    195 when the bind fails.  The same call made again right after is of
    the first kind. *)
Theorem startForwarder_alone (σ : state) (p : string) (bindOk : bool) :
  forwardMutex σ = false →
  ∃ σ', call σ p bindOk = Some σ'
    ∧ rtc step σ σ'
    ∧ forwardMutex σ' = false
    ∧ active σ' p = true
    ∧ (active σ p = true →
       activeForwards σ' = activeForwards σ
       ∧ goroutines σ' = goroutines σ ++ [Goroutine p (Returned NoOp)])
    ∧ (active σ p = false →
       activeForwards σ' = <[p := true]> (activeForwards σ)
       ∧ goroutines σ' = goroutines σ ++
           [Goroutine p (if bindOk then Accepting else Returned BindFailed)])
    ∧ call σ' p bindOk =
        Some (State false (activeForwards σ') (goroutines σ' ++ [Goroutine p (Returned NoOp)])).
Proof.
  intros Hm. pose proof (call_spec σ p bindOk Hm) as Hcall.
  eexists. split; [exact Hcall|]. split; [by eapply call_steps|].
  assert (active (State false
            (if active σ p then activeForwards σ else <[p := true]> (activeForwards σ))
            (goroutines σ ++
               [Goroutine p (if active σ p then Returned NoOp
                             else if bindOk then Accepting else Returned BindFailed)])) p
          = true) as Hact.
  { unfold active at 1. cbn [activeForwards]. destruct (active σ p) eqn:E; [done|].
    by rewrite lookup_insert_eq. }
  split; [done|]. split; [done|]. split; [by intros ->|]. split; [by intros ->|].
  rewrite call_spec by done. by rewrite Hact.
Qed.

Lemma startForwarder_alone_witness :
  ∃ σ', call failedState "54322" true = Some σ'
    ∧ goroutines σ' = goroutines failedState ++ [Goroutine "54322" (Returned NoOp)].
Proof.
  destruct (startForwarder_alone failedState "54322" true eq_refl)
    as (σ' & Hcall & _ & _ & _ & Hnoop & _).
  exists σ'. split; [exact Hcall|]. apply Hnoop. reflexivity.
Defined.

Lemma persist_step (σ σ' : state) i g :
  step σ σ' → goroutines σ !! i = Some g →
  length (goroutines σ) ≤ length (goroutines σ')
  ∧ ∃ a, goroutines σ' !! i = Some (Goroutine (port g) a)
         ∧ (finished (at_ g) = true → a = at_ g).
Proof.
  intros [act Hex] Hi. destruct act as [q|j bindOk]; simpl in Hex.
  - simplify_eq. cbn [goroutines]. rewrite length_app. split; [lia|].
    exists (at_ g). split; [|done]. rewrite lookup_app_l by by eapply lookup_lt_Some.
    by destruct g.
  - assert (i < length (goroutines σ)) as Hlt by by eapply lookup_lt_Some.
    destruct (decide (j = i)) as [->|Hne].
    + rewrite Hi in Hex. destruct g as [p a].
      destruct a; simpl in Hex; repeat case_match; simplify_eq;
        unfold move; cbn [goroutines port at_]; rewrite ?length_insert;
        (split; [lia|]); eexists; (split; [by rewrite ?list_lookup_insert_eq|done]).
    + destruct (goroutines σ !! j) as [[q b]|] eqn:Hj; [|done]. simpl in Hex.
      destruct b; simpl in Hex; repeat case_match; simplify_eq;
        unfold move; cbn [goroutines port at_]; rewrite ?length_insert;
        (split; [lia|]); exists (at_ g);
        (split; [rewrite ?list_lookup_insert_ne by done; by destruct g|done]).
Qed.

(** X20: nothing is ever taken back: along every run the list of
    invocations only grows, an invocation keeps its port, one that has
    returned stays returned, and one that sits in its accept loop sits
    there for good: the program has no way to stop a listener. *)
Theorem goroutines_persist (σ σ' : state) i g :
  rtc step σ σ' → goroutines σ !! i = Some g →
  length (goroutines σ) ≤ length (goroutines σ')
  ∧ ∃ a, goroutines σ' !! i = Some (Goroutine (port g) a)
         ∧ (finished (at_ g) = true → a = at_ g).
Proof.
  intros Hsteps. revert g. induction Hsteps as [σ|σ σ1 σ' Hstep _ IH]; intros g Hi.
  - split; [done|]. exists (at_ g). split; [by destruct g|done].
  - destruct (persist_step _ _ _ _ Hstep Hi) as (Hlen & a & Hi1 & Ha).
    destruct (IH _ Hi1) as (Hlen' & a' & Hi' & Ha'). split; [lia|].
    exists a'. split; [done|]. intros Hfin. cbn [at_] in Ha'.
    rewrite <- (Ha Hfin). apply Ha'. by rewrite (Ha Hfin).
Qed.

Lemma goroutines_persist_witness :
  length (goroutines failedState) ≤ length (goroutines laterState)
  ∧ ∃ a, goroutines laterState !! 0 = Some (Goroutine "54322" a)
         ∧ (finished (Returned BindFailed) = true → a = Returned BindFailed).
Proof.
  apply (goroutines_persist failedState laterState 0
           (Goroutine "54322" (Returned BindFailed))); [|reflexivity].
  apply (execs_steps laterRun). vm_compute. reflexivity.
Defined.

End CallsFacts.

(** ** Progress of [startForwarder] *)

Section BridgeProgress.
Import Forwarder ForwarderFacts Calls.

(** The three statements of the invocation that found the port absent:
    lines 186, 187 and 192. *)
Lemma winner_execs mx fw gs i p bindOk :
  gs !! i = Some (Goroutine p AtSet) →
  execs (State mx fw gs) (replicate 3 (Sched i bindOk)) =
    Some (State false (<[p := true]> fw)
            (<[i := Goroutine p (if bindOk then Accepting else Returned BindFailed)]> gs)).
Proof.
  intros Hi. assert (i < length gs) as Hlt by by eapply lookup_lt_Some.
  assert (∀ a (l : list goroutine), length l = length gs → <[i := a]> l !! i = Some a) as Hins.
  { intros. apply list_lookup_insert_eq. lia. }
  cbn [replicate execs]. rewrite (exec_sched _ _ _ _ _ _ Hi). cbn [at_ port execs].
  rewrite (exec_sched _ _ _ _ _ (Goroutine p AtUnlock)) by by apply Hins.
  cbn [at_ port execs].
  rewrite (exec_sched _ _ _ _ _ (Goroutine p AtListen))
    by (apply Hins; by rewrite length_insert).
  cbn [at_ port execs]. by rewrite !list_insert_insert_eq.
Qed.

(** The five statements of an invocation that takes the free mutex and
    finds the port absent. *)
Lemma first_execs fw gs i p bindOk :
  default false (fw !! p) = false → gs !! i = Some (Goroutine p AtLock) →
  execs (State false fw gs) (replicate 5 (Sched i bindOk)) =
    Some (State false (<[p := true]> fw)
            (<[i := Goroutine p (if bindOk then Accepting else Returned BindFailed)]> gs)).
Proof.
  intros Hp Hi. assert (i < length gs) as Hlt by by eapply lookup_lt_Some.
  assert (∀ a (l : list goroutine), length l = length gs → <[i := a]> l !! i = Some a) as Hins.
  { intros. apply list_lookup_insert_eq. lia. }
  change (replicate 5 (Sched i bindOk))
    with (Sched i bindOk :: Sched i bindOk :: replicate 3 (Sched i bindOk)).
  cbn [execs]. rewrite (exec_sched _ _ _ _ _ _ Hi). cbn [at_ port execs].
  rewrite (exec_sched _ _ _ _ _ (Goroutine p AtTest)) by by apply Hins.
  cbn [at_ port]. rewrite Hp.
  rewrite (winner_execs _ _ _ _ p) by (apply Hins; by rewrite length_insert).
  by rewrite !list_insert_insert_eq.
Qed.

(** The three statements of an invocation that takes the free mutex and
    finds the port present: lines 181 to 184. *)
Lemma later_execs fw gs i p bindOk :
  default false (fw !! p) = true → gs !! i = Some (Goroutine p AtLock) →
  execs (State false fw gs) (replicate 3 (Sched i bindOk)) =
    Some (State false fw (<[i := Goroutine p (Returned NoOp)]> gs)).
Proof.
  intros Hp Hi. assert (i < length gs) as Hlt by by eapply lookup_lt_Some.
  assert (∀ a (l : list goroutine), length l = length gs → <[i := a]> l !! i = Some a) as Hins.
  { intros. apply list_lookup_insert_eq. lia. }
  cbn [replicate execs]. rewrite (exec_sched _ _ _ _ _ _ Hi). cbn [at_ port execs].
  rewrite (exec_sched _ _ _ _ _ (Goroutine p AtTest)) by by apply Hins.
  cbn [at_ port]. rewrite Hp. cbn [execs].
  rewrite (exec_sched _ _ _ _ _ (Goroutine p AtUnlockReturn))
    by (apply Hins; by rewrite length_insert).
  cbn [at_ port execs]. by rewrite !list_insert_insert_eq.
Qed.

(** Whoever is between [Lock] and [Unlock] reaches its [Unlock] in at most
    three statements of its own, and moves nobody else. *)
Lemma holder_releases (σ : state) j g :
  goroutines σ !! j = Some g → holds_mutex g = true →
  ∃ n σ', n ≤ 3 ∧ execs σ (replicate n (Sched j true)) = Some σ'
    ∧ forwardMutex σ' = false
    ∧ ∀ k, k ≠ j → goroutines σ' !! k = goroutines σ !! k.
Proof.
  destruct σ as [mx fw gs], g as [p a]. cbn [goroutines]. intros Hj Ha.
  assert (j < length gs) as Hlt by by eapply lookup_lt_Some.
  assert (∀ a (l : list goroutine), length l = length gs → <[j := a]> l !! j = Some a) as Hins.
  { intros. apply list_lookup_insert_eq. lia. }
  destruct a; try done.
  - destruct (default false (fw !! p)) eqn:Hp.
    + exists 2. eexists. split; [lia|]. cbn [replicate execs].
      rewrite (exec_sched _ _ _ _ _ _ Hj). cbn [at_ port]. rewrite Hp. cbn [execs].
      rewrite (exec_sched _ _ _ _ _ (Goroutine p AtUnlockReturn)) by by apply Hins.
      cbn [at_ port execs]. split; [done|]. split; [done|]. intros k Hk.
      cbn [goroutines]. by rewrite !list_lookup_insert_ne.
    + exists 3. eexists. split; [lia|]. cbn [replicate execs].
      rewrite (exec_sched _ _ _ _ _ _ Hj). cbn [at_ port]. rewrite Hp. cbn [execs].
      rewrite (exec_sched _ _ _ _ _ (Goroutine p AtSet)) by by apply Hins.
      cbn [at_ port execs].
      rewrite (exec_sched _ _ _ _ _ (Goroutine p AtUnlock))
        by (apply Hins; by rewrite length_insert).
      cbn [at_ port execs]. split; [done|]. split; [done|]. intros k Hk.
      cbn [goroutines]. by rewrite !list_lookup_insert_ne.
  - exists 1. eexists. split; [lia|]. cbn [replicate execs].
    rewrite (exec_sched _ _ _ _ _ _ Hj). cbn [at_ port execs].
    split; [done|]. split; [done|]. intros k Hk.
    cbn [goroutines]. by rewrite !list_lookup_insert_ne.
  - exists 2. eexists. split; [lia|]. cbn [replicate execs].
    rewrite (exec_sched _ _ _ _ _ _ Hj). cbn [at_ port execs].
    rewrite (exec_sched _ _ _ _ _ (Goroutine p AtUnlock)) by by apply Hins.
    cbn [at_ port execs]. split; [done|]. split; [done|]. intros k Hk.
    cbn [goroutines]. by rewrite !list_lookup_insert_ne.
  - exists 1. eexists. split; [lia|]. cbn [replicate execs].
    rewrite (exec_sched _ _ _ _ _ _ Hj). cbn [at_ port execs].
    split; [done|]. split; [done|]. intros k Hk.
    cbn [goroutines]. by rewrite !list_lookup_insert_ne.
Qed.

(** An invocation that has returned, or sits in its accept loop, is never
    moved again. *)
Lemma finished_steps (σ σ' : state) i g :
  rtc step σ σ' → goroutines σ !! i = Some g → finished (at_ g) = true →
  goroutines σ' !! i = Some g.
Proof.
  intros Hsteps. induction Hsteps as [σ|σ σ1 σ' Hstep _ IH]; intros Hi Hfin; [done|].
  apply IH; [|done]. destruct (persist_step _ _ _ _ Hstep Hi) as (_ & a & Hi1 & Ha).
  rewrite Hi1, (Ha Hfin). by destruct g.
Qed.

(** A statement of one goroutine leaves the ports of all as they are. *)
Lemma ports_step_sched (σ σ' : state) j bindOk :
  exec σ (Sched j bindOk) = Some σ' → port <$> goroutines σ' = port <$> goroutines σ.
Proof.
  intros Hex. cbn [exec] in Hex.
  destruct (goroutines σ !! j) as [[q a]|] eqn:Hj; [|done]. cbn [at_ port] in Hex.
  assert (∀ b, port <$> <[j := Goroutine q b]> (goroutines σ) = port <$> goroutines σ) as Hp.
  { intros b. rewrite list_fmap_insert. apply list_insert_id.
    by rewrite list_lookup_fmap, Hj. }
  destruct a; repeat case_match; simplify_eq; unfold move; cbn [goroutines port]; by rewrite ?Hp.
Qed.

Lemma ports_execs_sched (σ σ' : state) j bindOk n :
  execs σ (replicate n (Sched j bindOk)) = Some σ' →
  port <$> goroutines σ' = port <$> goroutines σ.
Proof.
  revert σ. induction n as [|n IH]; intros σ H; cbn [replicate execs] in H.
  - by simplify_eq.
  - destruct (exec σ (Sched j bindOk)) as [σ1|] eqn:E; [|done].
    rewrite (IH _ H). by eapply ports_step_sched.
Qed.

(** The number of invocations for a port is a function of the ports. *)
Lemma invocations_ports (σ σ' : state) p :
  port <$> goroutines σ' = port <$> goroutines σ → invocations p σ' = invocations p σ.
Proof.
  unfold invocations, countFor, count. generalize (goroutines σ) (goroutines σ').
  induction l as [|g l IH]; intros [|g' l'] H; simplify_eq/=; [done|].
  unfold for_port at 1 3. rewrite H. by rewrite (IH l').
Qed.

Lemma count_split_on (P Q R : goroutine → bool) (gs : list goroutine) :
  (∀ i g, gs !! i = Some g → Nat.b2n (P g) = Nat.b2n (Q g) + Nat.b2n (R g)) →
  count P gs = count Q gs + count R gs.
Proof.
  unfold count. induction gs as [|x gs IH]; intros H; simpl; [done|].
  rewrite (H 0 x eq_refl), IH; [lia|]. intros i g Hi. by apply (H (S i)).
Qed.

(** An invocation past the test on the path that returns at line 184 has
    seen its port in the map, where it stays. *)
Lemma noop_seen (σ : state) i p a :
  reachable σ → goroutines σ !! i = Some (Goroutine p a) →
  match a with AtUnlockReturn | Returned NoOp => active σ p = true | _ => True end.
Proof.
  intros Hreach. revert i p a.
  eapply (rtc_ind_r (λ s, ∀ i p a, goroutines s !! i = Some (Goroutine p a) →
            match a with AtUnlockReturn | Returned NoOp => active s p = true | _ => True end)
            init); [| |exact Hreach].
  - intros i p a H. by destruct i.
  - intros σ1 σ2 _ Hstep IH i p a Hi.
    assert (∀ q, active σ1 q = true → active σ2 q = true) as Hmono
      by (intros; by eapply active_step).
    destruct Hstep as [[q|j bindOk] Hex].
    + cbn [exec] in Hex. simplify_eq. cbn [goroutines] in Hi.
      apply lookup_app_Some in Hi as [Hi|[_ Hi]].
      * specialize (IH _ _ _ Hi). by destruct a as [| | | | | | |[]].
      * apply list_lookup_singleton_Some in Hi as [_ Hi]. by simplify_eq.
    + destruct (decide (j = i)) as [->|Hne].
      * cbn [exec] in Hex.
        destruct (goroutines σ1 !! i) as [[q b]|] eqn:Hb; [|done].
        assert (i < length (goroutines σ1)) as Hlt by by eapply lookup_lt_Some.
        specialize (IH _ _ _ Hb). cbn [at_ port] in Hex. revert Hi.
        destruct b; repeat case_match; simplify_eq; unfold move;
          cbn [goroutines]; rewrite ?list_lookup_insert_eq by done;
          intros Hi; simplify_eq; try done.
      * assert (goroutines σ2 !! i = goroutines σ1 !! i) as Heq.
        { cbn [exec] in Hex. destruct (goroutines σ1 !! j) as [[q b]|]; [|done].
          cbn [at_ port] in Hex.
          destruct b; repeat case_match; simplify_eq; unfold move; cbn [goroutines];
            by rewrite ?list_lookup_insert_ne. }
        rewrite Heq in Hi. specialize (IH _ _ _ Hi).
        destruct a as [| | | | | | |[]]; try done; by apply Hmono.
Qed.

(** With the mutex free, one invocation can always be run to its end: the
    others stay where they are. *)
Lemma finish_one (σ : state) k :
  reachable σ → forwardMutex σ = false → k < length (goroutines σ) →
  ∃ σ', rtc step σ σ' ∧ forwardMutex σ' = false
    ∧ port <$> goroutines σ' = port <$> goroutines σ
    ∧ ∃ g, goroutines σ' !! k = Some g ∧ finished (at_ g) = true.
Proof.
  intros Hreach Hm Hk. destruct (lookup_lt_is_Some_2 _ _ Hk) as [[p a] Hg].
  destruct (inv_reachable σ Hreach) as [Hmx _]. rewrite Hm in Hmx.
  assert (holds_mutex (Goroutine p a) = false) as Hfree.
  { destruct (holds_mutex (Goroutine p a)) eqn:E; [|done].
    pose proof (count_pos _ _ _ _ Hg E). simpl in Hmx. lia. }
  destruct (finished a) eqn:Hfin.
  { exists σ. repeat split; try done. by exists (Goroutine p a). }
  destruct a; try done.
  - pose proof (runCall_from_lock σ k p true Hm Hg) as Hrun.
    eexists. split; [by eapply runCall_steps|].
    assert (∀ b, port <$> <[k := Goroutine p b]> (goroutines σ) = port <$> goroutines σ) as Hp.
    { intros b. rewrite list_fmap_insert. apply list_insert_id.
      by rewrite list_lookup_fmap, Hg. }
    destruct (active σ p); cbn [forwardMutex goroutines]; rewrite Hp;
      (split; [done|]); (split; [done|]); eexists;
      (split; [by apply list_lookup_insert_eq|done]).
  - destruct σ as [mx fw gs]. cbn [forwardMutex goroutines] in *. subst mx.
    pose proof (exec_sched false fw gs k true _ Hg) as Hex. cbn [at_ port] in Hex.
    eexists. split; [apply rtc_once; eexists; exact Hex|].
    cbn [forwardMutex goroutines]. split; [done|]. split.
    + rewrite list_fmap_insert. apply list_insert_id. by rewrite list_lookup_fmap, Hg.
    + eexists. split; [by apply list_lookup_insert_eq|done].
Qed.

Lemma finish_prefix (k : nat) (σ : state) :
  reachable σ → forwardMutex σ = false → k ≤ length (goroutines σ) →
  ∃ σ', rtc step σ σ' ∧ forwardMutex σ' = false
    ∧ port <$> goroutines σ' = port <$> goroutines σ
    ∧ ∀ j g, j < k → goroutines σ' !! j = Some g → finished (at_ g) = true.
Proof.
  intros Hreach Hm. induction k as [|k IH]; intros Hk.
  - exists σ. repeat split; try done. intros; lia.
  - destruct IH as (σ1 & Hsteps & Hm1 & Hports & Hdone); [lia|].
    assert (length (goroutines σ1) = length (goroutines σ)) as Hlen.
    { by rewrite <- (length_fmap port), Hports, length_fmap. }
    destruct (finish_one σ1 k) as (σ2 & Hsteps2 & Hm2 & Hports2 & g & Hg & Hfin);
      [by eapply rtc_trans|done|lia|].
    exists σ2. split; [by eapply rtc_trans|]. split; [done|].
    split; [by rewrite Hports2|]. intros j g' Hj Hg'.
    destruct (decide (j = k)) as [->|Hne]; [by simplify_eq|].
    assert (j < length (goroutines σ1)) as Hlt by lia.
    destruct (lookup_lt_is_Some_2 _ _ Hlt) as [g1 Hg1].
    assert (finished (at_ g1) = true) as Hf1 by (apply (Hdone j); [lia|done]).
    pose proof (finished_steps _ _ _ _ Hsteps2 Hg1 Hf1). by simplify_eq.
Qed.

(** Every reachable state can be run to an end: no invocation is added,
    each has returned or sits in its accept loop, and of the invocations
    for a port exactly one has called [net.Listen], the others having
    returned at line 184. *)
Lemma run_to_end (σ : state) :
  reachable σ →
  ∃ σ', rtc step σ σ'
    ∧ (∀ i g, goroutines σ' !! i = Some g → finished (at_ g) = true)
    ∧ ∀ p, invocations p σ' = invocations p σ
           ∧ (1 ≤ invocations p σ →
              listenCalls p σ' = 1 ∧ countFor returned_noop p σ' = invocations p σ - 1).
Proof.
  intros Hreach.
  assert (∃ σ1, rtc step σ σ1 ∧ forwardMutex σ1 = false
                ∧ port <$> goroutines σ1 = port <$> goroutines σ) as (σ1 & Hs1 & Hm1 & Hp1).
  { destruct (forwardMutex σ) eqn:Hm; [|by exists σ].
    destruct (mutex_holder σ Hreach Hm) as (j & g & Hj & Hg).
    destruct (holder_releases σ j g Hj Hg) as (n & σ1 & _ & Hex & Hm1 & _).
    exists σ1. split; [by eapply execs_steps|]. split; [done|].
    by eapply ports_execs_sched. }
  destruct (finish_prefix (length (goroutines σ1)) σ1) as (σ' & Hs & _ & Hp & Hdone);
    [by eapply rtc_trans|done|lia|].
  assert (reachable σ') as Hreach' by (eapply rtc_trans; [|exact Hs]; by eapply rtc_trans).
  assert (∀ i g, goroutines σ' !! i = Some g → finished (at_ g) = true) as Hall.
  { intros i g Hi. apply (Hdone i); [|done].
    rewrite <- (length_fmap port), <- Hp, length_fmap. by eapply lookup_lt_Some. }
  exists σ'. split; [by eapply rtc_trans|]. split; [done|]. intros p.
  assert (invocations p σ' = invocations p σ) as Hinv.
  { apply invocations_ports. by rewrite Hp. }
  split; [done|]. intros Hone.
  assert (invocations p σ' = listenCalls p σ' + countFor returned_noop p σ') as Hsplit.
  { apply count_split_on. intros i [q a] Hi. specialize (Hall _ _ Hi). simpl in Hall.
    destruct (for_port p _); [|done]. by destruct a as [| | | | | | |[]]. }
  destruct (inv_reachable σ' Hreach') as [_ Hper]. destruct (Hper p) as (Hwon & _ & _).
  assert (listenCalls p σ' ≤ winners p σ') as Hle.
  { apply count_le. intros [q a]. unfold for_port. simpl.
    by destruct (bool_decide (q = p)), a as [| | | | | | |[]]. }
  assert (1 ≤ listenCalls p σ') as Hge; [|lia].
  assert (active σ' p = true) as Hact.
  { assert (1 ≤ count (λ g, for_port p g && true)%bool (goroutines σ')) as Hsome.
    { change (1 ≤ invocations p σ'). lia. }
    destruct (count_exists _ _ Hsome) as (i & [q a] & Hi & Hq).
    rewrite andb_true_r in Hq. apply bool_decide_eq_true in Hq. simpl in Hq. subst q.
    pose proof (Hall _ _ Hi) as Hfin. pose proof (noop_seen σ' i p a Hreach' Hi) as Hseen.
    destruct a as [| | | | | | |[]]; try done.
    - destruct (Hper p) as (_ & Hset & _). destruct (active σ' p); [done|].
      specialize (Hset eq_refl).
      assert (1 ≤ countFor has_set p σ'); [|lia].
      apply (count_pos _ _ i _ Hi). unfold for_port. cbn [port].
      by rewrite bool_decide_true.
    - destruct (Hper p) as (_ & Hset & _). destruct (active σ' p); [done|].
      specialize (Hset eq_refl).
      assert (1 ≤ countFor has_set p σ'); [|lia].
      apply (count_pos _ _ i _ Hi). unfold for_port. cbn [port].
      by rewrite bool_decide_true. }
  destruct (registry_inv_reachable σ' Hreach') as [_ Hreg].
  destruct (count_exists _ _ (Hreg p Hact)) as (i & [q a] & Hi & Hq).
  apply andb_true_iff in Hq as [Hq Ha]. apply (count_pos _ _ i _ Hi).
  rewrite Hq. pose proof (Hall _ _ Hi) as Hfin. by destruct a as [| | | | | | |[]].
Qed.

(** C1: whatever the number of invocations of [startForwarder] with port
    [p] and however they interleave, in every state the program can reach:
    at most one of them has won the test-and-set, so [net.Listen] has been
    called at most once for [p] and at most one listener exists; a port
    whose winner has executed the assignment is in [activeForwards] and
    stays there in every later state, and an invocation that starts with
    the port present stays on the path that returns at line 184.  The
    winner does proceed: the invocation that found the port absent adds it,
    releases the mutex and calls [net.Listen] in its next three statements,
    and an invocation that takes the free mutex while the port is absent
    does so in five; that is then the one call of [net.Listen] for [p].
    A later invocation does return: once whoever holds the mutex has
    released it, which takes at most three statements of the holder, its
    three statements lead to the return of line 184, the mutex is free
    again, and the map and every other invocation are as before.  And
    every state can be run to an end in which each invocation has returned
    or sits in its accept loop: then, of [N >= 1] invocations for [p],
    exactly one has called [net.Listen] and [N - 1] have returned at line
    184. *)
Theorem at_most_one_listener_per_port (σ : state) (p : string) :
  reachable σ →
  winners p σ ≤ 1
  ∧ listenCalls p σ ≤ 1
  ∧ listeners p σ ≤ 1
  ∧ listenCalls p σ ≤ winners p σ
  ∧ listeners p σ ≤ listenCalls p σ
  ∧ winners p σ ≤ invocations p σ
  ∧ (1 ≤ countFor has_set p σ → active σ p = true)
  ∧ (∀ σ', rtc step σ σ' → active σ p = true →
      active σ' p = true
      ∧ ∀ i, goroutines σ !! i = Some (Goroutine p AtLock) →
          ∃ a, goroutines σ' !! i = Some (Goroutine p a) ∧ noop_path a = true)
  ∧ (∀ i bindOk, goroutines σ !! i = Some (Goroutine p AtSet) →
      ∃ σ', execs σ (replicate 3 (Sched i bindOk)) = Some σ'
        ∧ σ' = State false (<[p := true]> (activeForwards σ))
                 (<[i := Goroutine p (if bindOk then Accepting else Returned BindFailed)]>
                    (goroutines σ))
        ∧ listenCalls p σ' = 1)
  ∧ (∀ i bindOk, forwardMutex σ = false → active σ p = false →
      goroutines σ !! i = Some (Goroutine p AtLock) →
      ∃ σ', execs σ (replicate 5 (Sched i bindOk)) = Some σ'
        ∧ σ' = State false (<[p := true]> (activeForwards σ))
                 (<[i := Goroutine p (if bindOk then Accepting else Returned BindFailed)]>
                    (goroutines σ))
        ∧ listenCalls p σ' = 1)
  ∧ (∀ i bindOk, active σ p = true → goroutines σ !! i = Some (Goroutine p AtLock) →
      ∃ j n σ1, n ≤ 3 ∧ (forwardMutex σ = false → n = 0)
        ∧ execs σ (replicate n (Sched j true)) = Some σ1
        ∧ execs σ1 (replicate 3 (Sched i bindOk)) =
            Some (State false (activeForwards σ1)
                    (<[i := Goroutine p (Returned NoOp)]> (goroutines σ1))))
  ∧ ∃ σ', rtc step σ σ'
      ∧ (∀ i g, goroutines σ' !! i = Some g → finished (at_ g) = true)
      ∧ invocations p σ' = invocations p σ
      ∧ (1 ≤ invocations p σ →
         listenCalls p σ' = 1 ∧ countFor returned_noop p σ' = invocations p σ - 1).
Proof.
  intros Hreach. destruct (inv_reachable σ Hreach) as [_ Hp].
  destruct (Hp p) as (Hwon & Hset & _).
  assert (∀ τ, listenCalls p τ ≤ winners p τ) as Hcalls.
  { intros τ. apply count_le. intros [q a]. unfold for_port. simpl.
    by destruct (bool_decide (q = p)), a as [| | | | | | |[]]. }
  assert (listeners p σ ≤ listenCalls p σ) as Hlisteners.
  { apply count_le. intros [q a]. unfold for_port. simpl.
    by destruct (bool_decide (q = p)), a as [| | | | | | |[]]. }
  assert (∀ i (b : bool) sched τ, i < length (goroutines σ) →
            execs σ sched = Some τ →
            τ = State false (<[p := true]> (activeForwards σ))
                  (<[i := Goroutine p (if b then Accepting else Returned BindFailed)]>
                     (goroutines σ)) →
            listenCalls p τ = 1) as Hone.
  { intros i b sched τ Hi Hex Hτ.
    assert (reachable τ) as Hreach'.
    { eapply rtc_trans; [exact Hreach|by eapply execs_steps]. }
    destruct (inv_reachable _ Hreach') as [_ Hp']. destruct (Hp' p) as (Hwon' & _).
    specialize (Hcalls τ). assert (1 ≤ listenCalls p τ); [|lia]. subst τ.
    apply (count_pos _ _ i (Goroutine p (if b then Accepting else Returned BindFailed))).
    - cbn [goroutines]. by apply list_lookup_insert_eq.
    - unfold for_port. cbn [port]. rewrite bool_decide_true by done. by destruct b. }
  split; [done|]. split; [specialize (Hcalls σ); lia|].
  split; [specialize (Hcalls σ); lia|]. split; [apply Hcalls|]. split; [done|].
  split; [apply count_le; intros [q a]; by destruct (for_port p _)|].
  split; [intros H1; destruct (active σ p); [done|]; specialize (Hset eq_refl); lia|].
  split.
  { intros σ' Hsteps Hact. split; [by eapply active_steps|].
    intros i Hi. by eapply noop_path_steps. }
  split.
  { intros i bindOk Hi.
    assert (execs σ (replicate 3 (Sched i bindOk)) =
              Some (State false (<[p := true]> (activeForwards σ))
                      (<[i := Goroutine p (if bindOk then Accepting else Returned BindFailed)]>
                         (goroutines σ)))) as Hex
      by (destruct σ; by apply winner_execs).
    eexists. split; [exact Hex|]. split; [done|].
    eapply Hone; [by eapply lookup_lt_Some|exact Hex|done]. }
  split.
  { intros i bindOk Hm Hact Hi.
    assert (execs σ (replicate 5 (Sched i bindOk)) =
              Some (State false (<[p := true]> (activeForwards σ))
                      (<[i := Goroutine p (if bindOk then Accepting else Returned BindFailed)]>
                         (goroutines σ)))) as Hex.
    { destruct σ as [mx fw gs]. unfold active in Hact.
      cbn [forwardMutex activeForwards goroutines] in *. subst mx. by apply first_execs. }
    eexists. split; [exact Hex|]. split; [done|].
    eapply Hone; [by eapply lookup_lt_Some|exact Hex|done]. }
  split.
  { intros i bindOk Hact Hi. destruct (forwardMutex σ) eqn:Hm.
    - destruct (mutex_holder σ Hreach Hm) as (j & g & Hj & Hg).
      destruct (holder_releases σ j g Hj Hg) as (n & σ1 & Hn & Hex & Hm1 & Hothers).
      exists j, n, σ1. split; [done|]. split; [done|]. split; [done|].
      assert (j ≠ i) as Hne by (intros ->; by simplify_eq).
      assert (active σ1 p = true) as Hact1.
      { eapply active_steps; [by eapply execs_steps|done]. }
      assert (goroutines σ1 !! i = Some (Goroutine p AtLock)) as Hi1.
      { rewrite Hothers; done. }
      destruct σ1 as [mx1 fw1 gs1]. unfold active in Hact1.
      cbn [forwardMutex activeForwards goroutines] in *. subst mx1. by apply later_execs.
    - exists 0, 0, σ. split; [lia|]. split; [done|]. split; [done|].
      destruct σ as [mx fw gs]. unfold active in Hact.
      cbn [forwardMutex activeForwards goroutines] in *. subst mx. by apply later_execs. }
  destruct (run_to_end σ Hreach) as (σ' & Hs & Hall & Hcount).
  exists σ'. destruct (Hcount p) as [Hinv Hend]. done.
Qed.

Lemma at_most_one_listener_per_port_witness :
  listenCalls "54322" waitingState ≤ 1
  ∧ ∃ j n σ1, n ≤ 3
      ∧ execs waitingState (replicate n (Sched j true)) = Some σ1
      ∧ execs σ1 (replicate 3 (Sched 1 true)) =
          Some (State false (activeForwards σ1)
                  (<[1 := Goroutine "54322" (Returned NoOp)]> (goroutines σ1))).
Proof.
  assert (reachable waitingState) as Hreach.
  { apply (execs_steps waitingRun). vm_compute. reflexivity. }
  destruct (at_most_one_listener_per_port waitingState "54322" Hreach)
    as (_ & Hcalls & _ & _ & _ & _ & _ & _ & _ & _ & Hlater & _).
  split; [exact Hcalls|].
  destruct (Hlater 1 true eq_refl eq_refl) as (j & n & σ1 & Hn & _ & Hex & Hret).
  exists j, n, σ1. split; [exact Hn|]. split; [exact Hex|exact Hret].
Defined.

End BridgeProgress.

(** ** From a request to its listeners *)

Section RequestToListeners.
Import Forwarder ForwarderFacts Calls.

Variable Unmarshal : string → unmarshalled.
Variable Marshal : gmap string value → string.

Lemma elem_of_filter_length (p : string) (ps : list string) :
  bool_decide (p ∈ ps) = bool_decide (1 ≤ length (filter (λ x, x = p) ps)).
Proof.
  apply bool_decide_ext. induction ps as [|q ps IH].
  - rewrite filter_nil. simpl. split; [by intros ?%not_elem_of_nil|lia].
  - rewrite filter_cons, elem_of_cons. destruct (decide (q = p)) as [->|Hne]; simpl.
    + split; [lia|by left].
    + rewrite <- IH. split; [intros [?|?]; [congruence|done]|by right].
Qed.

(** X21: the forwarders of one request, run one after the other on a state
    with the mutex free: every binding descriptor that carries a host port
    becomes one invocation, and for each port that occurs in the payload
    and is not yet in the map exactly one of them calls [net.Listen], how
    often the port occurs notwithstanding; a port that is already in the
    map gets no further listener.  Afterwards the mutex is free and every
    port of the payload is in the map. *)
Theorem request_forwarders_served (σ : state) (req : Request) (bodyBytes b ip : string)
    (m : gmap string value) (bindOk : bool) :
  Body req = Reader bodyBytes →
  Unmarshal bodyBytes = UnmarshalObject m →
  forwardMutex σ = false →
  ∃ σ', serve σ (forwarders (modifyAndExtract Unmarshal Marshal req b ip)).*1 bindOk = Some σ'
    ∧ rtc step σ σ'
    ∧ forwardMutex σ' = false
    ∧ ∀ p, invocations p σ' = invocations p σ + occurrences p m
           ∧ active σ' p = (active σ p || bool_decide (1 ≤ occurrences p m))%bool
           ∧ listenCalls p σ' = listenCalls p σ +
               (if active σ p then 0 else if bool_decide (1 ≤ occurrences p m) then 1 else 0)
           ∧ listeners p σ' = listeners p σ +
               (if bindOk
                then if active σ p then 0
                     else if bool_decide (1 ≤ occurrences p m) then 1 else 0
                else 0).
Proof.
  intros Hbody Hdec Hm. rewrite (modifyAndExtract_decoded _ _ _ _ _ _ _ Hbody Hdec).
  cbn [forwarders].
  destruct (rewritePayload_observed b ip m) as (_ & _ & _ & _ & ->).
  rewrite <- list_fmap_compose.
  replace (fst ∘ (λ p, (p, ip))) with (@id string) by done. rewrite list_fmap_id.
  destruct (serve_observed σ (discoverPorts (portBindingsOf m)) bindOk Hm)
    as (σ' & Hserve & Hsteps & Hm' & Hq).
  exists σ'. do 3 (split; [done|]). intros p. destruct (Hq p) as (Ha & Hi & Hl & Hs).
  unfold fresh_in in Hl, Hs.
  rewrite elem_of_filter_length, discoverPorts_occurrences in Ha, Hl, Hs.
  rewrite discoverPorts_occurrences in Hi. done.
Qed.

End RequestToListeners.

Lemma request_forwarders_served_witness :
  ∃ σ', Forwarder.listeners "54322" σ' = 1
        ∧ Forwarder.listeners "8000" σ' = 1
        ∧ Forwarder.invocations "54322" σ' = 2
        ∧ Calls.serve Forwarder.init
            (forwarders (modifyAndExtract SampleJSON.Unmarshal (λ _, "encoded")
                           {| Body := Reader samplePorts; ContentLength := 0 |}
                           "/vol/" "10.0.0.2")).*1 true = Some σ'.
Proof.
  destruct (request_forwarders_served SampleJSON.Unmarshal (λ _, "encoded") Forwarder.init
              {| Body := Reader samplePorts; ContentLength := 0 |} samplePorts
              "/vol/" "10.0.0.2" (mapOf (SampleJSON.Unmarshal samplePorts)) true)
    as (σ' & Hserve & _ & _ & Hp).
  - reflexivity.
  - vm_compute. reflexivity.
  - reflexivity.
  - exists σ'. destruct (Hp "54322") as (Hi & _ & _ & Hl54322).
    destruct (Hp "8000") as (_ & _ & _ & Hl8000).
    split; [rewrite Hl54322; by vm_compute|].
    split; [rewrite Hl8000; by vm_compute|]. split; [rewrite Hi; by vm_compute|done].
Defined.

(** A create request on a path with an API version in front, with the
    default flags: the hook takes it, and the forwarders go to the default
    address. *)
Example Director_versioned_path :
  Director SampleJSON.Unmarshal (λ _, "encoded") defaultFlags
    {| Method := "POST";
       ReqURL := {| Scheme := EmptyString; URLHost := EmptyString;
                    Path := "/v1.43/containers/create" |};
       Host := "127.0.0.1:2375";
       Payload := {| Body := Reader samplePorts; ContentLength := 0 |} |}
  = ({| Method := "POST";
        ReqURL := {| Scheme := "http"; URLHost := "192.168.137.25:2375";
                     Path := "/v1.43/containers/create" |};
        Host := "192.168.137.25:2375";
        Payload := {| Body := Reader samplePorts;
                      ContentLength := Z.of_nat (String.length samplePorts) |} |},
     [("54322", "192.168.137.25"); ("54322", "192.168.137.25"); ("8000", "192.168.137.25")]).
Proof. by vm_compute. Qed.
